(** * codetrust-app: the registry, the report fetcher, the classifier and the
      HTTP handlers of [server.js] and [util.js], embedded in Rocq.

    JavaScript strings are modelled as [string], holding the UTF-8 bytes of
    the text; the two marker characters are three bytes each and a search for
    a whole character in well-formed text finds the same occurrences on bytes
    as on code units. The two [Map]s are [gmap]s keyed by strings. Calls to
    the code-hosting platform are calls to an oracle that threads a state of
    the outside world. [console.log] and [console.error] are not modelled. *)

From Stdlib Require Import Ascii.
From stdpp Require Import gmap strings list fin_maps.

Local Open Scope Z_scope.

(** ** Completions: a JavaScript computation returns or throws *)

Inductive js_error :=
  | Error (message : string)   (* [new Error(message)] *)
  | TypeError                  (* a property read or a call on [undefined] *)
  | Rejected.                  (* a rejected upstream promise, or a signing failure *)

Inductive completion (A : Type) :=
  | Returned (a : A)
  | Threw (e : js_error).
Arguments Returned {A} a.
Arguments Threw {A} e.

Definition bind {A B} (m : completion A) (k : A → completion B) : completion B :=
  match m with
  | Returned a => k a
  | Threw e => Threw e
  end.

Notation "'let!' x := m 'in' k" := (bind m (λ x, k))
  (at level 10, x name, m at level 100, k at level 200).

(** [Array.prototype.map] with a callback that may throw: elements are visited
    in order and the first exception aborts the whole call. *)
Fixpoint array_map {A B} (f : A → completion B) (l : list A) : completion (list B) :=
  match l with
  | [] => Returned []
  | x :: l' =>
      let! y := f x in
      let! ys := array_map f l' in
      Returned (y :: ys)
  end.

(** ** Strings *)

Module Js.

(** [String.prototype.includes(needle)]: is [needle] a substring of [hay]? *)
Fixpoint includes (needle hay : string) : bool :=
  String.prefix needle hay ||
  match hay with
  | EmptyString => false
  | String _ hay' => includes needle hay'
  end.

(** [Array.prototype.join(sep)] on an array of strings. *)
Fixpoint join (sep : string) (l : list string) : string :=
  match l with
  | [] => ""
  | [x] => x
  | x :: l' => x +:+ sep +:+ join sep l'
  end.

(** [s.split("/")], with the piece being read kept in [cur]. *)
Fixpoint split_from (cur s : string) : list string :=
  match s with
  | EmptyString => [cur]
  | String c s' =>
      if Ascii.eqb c "/"%char then cur :: split_from "" s'
      else split_from (cur +:+ String c "") s'
  end.

Definition split_slash (s : string) : list string := split_from "" s.

End Js.

(** ** Data model *)

(** The little of JSON that an alert returned by the platform is made of. *)
#[warnings="-register-all"]
Inductive json :=
  | JNull
  | JBool (b : bool)
  | JNum (n : Z)
  | JStr (s : string)
  | JArr (l : list json)
  | JObj (members : list (string * json)).

(** An alert is a JSON object; the code never looks inside one. *)
Definition alert := list (string * json).

(** The [codeql] and [dependabot] properties of a report: a string, a list of
    alerts, or not there at all ([undefined]). *)
Inductive field :=
  | Absent
  | Text (s : string)
  | Alerts (l : list alert).

(** What [fetchSecurityReports] returns, and (with [repoFullName] spread in
    front) a report as the classifier and [/checkIfSafeToUse] see it. *)
Record fetched := {
  f_codeql : field;
  f_dependabot : field;
  f_error : option string
}.

Record report := {
  repoFullName : string;
  codeql : field;
  dependabot : field;
  error : option string
}.

(** [{ repoFullName, ...report }] *)
Definition spread (name : string) (f : fetched) : report :=
  {| repoFullName := name; codeql := f_codeql f; dependabot := f_dependabot f;
     error := f_error f |}.

Record verdict := {
  v_repoFullName : string;
  safeToUse : bool;
  message : string
}.

(** ** The classifier ([util.js]) *)

Definition clear_marker : string := "✅".
Definition failure_marker : string := "❌".

(** No alert object is the same value as a string. *)
Definition same_value_zero (a : alert) (s : string) : bool := false.

(** [f.includes(needle)]: [String.prototype.includes] on a string,
    [Array.prototype.includes] on a list, a [TypeError] on [undefined]. *)
Definition includes (f : field) (needle : string) : completion bool :=
  match f with
  | Text s => Returned (Js.includes needle s)
  | Alerts l => Returned (existsb (λ a, same_value_zero a needle) l)
  | Absent => Threw TypeError
  end.

(** The callback of [reportList.map]. [&&] and [||] evaluate their right
    operand only when the left one does not decide. *)
Definition classify (r : report) : completion verdict :=
  let! safe :=
    (let! c := includes (codeql r) clear_marker in
     if c then includes (dependabot r) clear_marker else Returned false) in
  let! unsafe :=
    (let! c := includes (codeql r) clear_marker in
     if negb c then Returned true
     else let! d := includes (dependabot r) clear_marker in Returned (negb d)) in
  Returned
    {| v_repoFullName := repoFullName r;
       safeToUse := safe;
       message :=
         if unsafe
         then "❌ " +:+ repoFullName r +:+ " is NOT safe to use due to security alerts."
         else "✅ " +:+ repoFullName r +:+ " is safe to use." |}.

(** The argument of [analyzeReports]: an array of reports, or anything else. *)
Inductive report_list :=
  | NotAnArray
  | ReportArray (l : list report).

Definition invalid_input : js_error :=
  Error "❌ Invalid input: reportList must be a non-empty array.".

Definition analyzeReports (reportList : report_list) : completion (list verdict) :=
  match reportList with
  | NotAnArray => Threw invalid_input
  | ReportArray [] => Threw invalid_input
  | ReportArray l => array_map classify l
  end.

(** ** The outside world *)

Inductive endpoint :=
  | CodeScanningAlerts   (* GET /repos/{owner}/{repo}/code-scanning/alerts *)
  | DependabotAlerts.    (* GET /repos/{owner}/{repo}/dependabot/alerts *)

(** The code-hosting platform and the signing library, as the server uses
    them. Every call may fail, and may answer differently the next time: the
    calls thread a [world]. An owner or a repository name is [None] when
    [split] produced no such piece. *)
Class Platform := {
  world : Type;
  octokit : Type;
  (* [jwt.sign(payload, privateKey, ...)] in [generateGitHubJWT] *)
  sign_jwt : world → completion string * world;
  (* [new Octokit({ auth })] *)
  new_octokit : string → octokit;
  (* POST /app/installations/{installation_id}/access_tokens, giving [data.token] *)
  request_access_token : octokit → Z → world → completion string * world;
  (* the two alert listings, giving [data] *)
  request_alerts :
    octokit → endpoint → option string → option string → world →
    completion (list alert) * world
}.

(** The module-level state of [server.js]. *)
Record registry := {
  installedRepositories : gmap string Z;            (* repoFullName -> installationId *)
  orgRepositories : gmap string (list string)       (* orgName -> [repoFullNames] *)
}.

Definition empty_registry : registry :=
  {| installedRepositories := ∅; orgRepositories := ∅ |}.

(** [addRepository]: [set], create the list when the organization has none,
    then [push] without looking at what the list holds. *)
Definition addRepository (repoFullName orgName : string) (installationId : Z)
    (st : registry) : registry :=
  let installed := <[repoFullName := installationId]> (installedRepositories st) in
  let orgs :=
    if decide (is_Some (orgRepositories st !! orgName)) then orgRepositories st
    else <[orgName := []]> (orgRepositories st) in
  {| installedRepositories := installed;
     orgRepositories := alter (λ l, l ++ [repoFullName]) orgName orgs |}.

(** The body of the [forEach] of [/addOrgWithRepos]: [push] unless the list
    [includes] the repository. *)
Definition add_unless_listed (org : string) (orgs : gmap string (list string))
    (repo : string) : gmap string (list string) :=
  match orgs !! org with
  | Some l => if decide (repo ∈ l) then orgs else <[org := l ++ [repo]]> orgs
  | None => orgs
  end.

(** ** Handlers *)

Inductive version := V1 | V2.   (* the two copies of [server.js] *)

Inductive body :=
  | Message (message : string)                       (* [{ message }] *)
  | Reports (reports : list report)                  (* [reports] *)
  | OrgReports (org : option string) (reports : list report)   (* [{ org, reports }] *)
  | Plain (text : string).                           (* [send(text)] *)

Record response := { status : nat; payload : body }.

(** [res.json(b)] answers with status 200. *)
Definition json_response (b : body) : response := {| status := 200; payload := b |}.

(** [`${x}`] for a string that may be [undefined]. *)
Definition show (x : option string) : string := default "undefined" x.

(** [!x] for a string that may be [undefined]. *)
Definition falsy (x : option string) : bool :=
  match x with
  | None => true
  | Some s => bool_decide (s = "")
  end.

(** [/checkIfAdded] *)
Definition checkIfAdded (repoUrl : option string) (st : registry) : response * registry :=
  match repoUrl with
  | Some r =>
      if decide (is_Some (installedRepositories st !! r))
      then (json_response (Message ("✅ Repository " +:+ r +:+ " has installed the app.")), st)
      else ({| status := 404;
               payload := Message ("❌ Repository " +:+ r +:+ " has NOT installed the app.") |}, st)
  | None =>
      ({| status := 404;
          payload := Message ("❌ Repository undefined has NOT installed the app.") |}, st)
  end.

(** The body of a POST to [/addOrgWithRepos]: [repos] is [None] when it is
    missing or not an array. *)
Record registration := {
  org : option string;
  repos : option (list string)
}.

Definition invalid_request : response :=
  {| status := 400;
     payload := Message "❌ Invalid request. Provide 'org' and a non-empty array of 'repos'." |}.

Definition added_message (v : version) (o : string) (rs : list string) : string :=
  match v with
  | V1 => "Added organization " +:+ o +:+ " with repositories: " +:+ Js.join ", " rs
  | V2 => "✅ Added organization " +:+ o +:+ " with repositories: " +:+ Js.join ", " rs
  end.

Definition addOrgWithRepos (v : version) (req : registration) (st : registry)
    : response * registry :=
  match org req, repos req with
  | Some o, Some rs =>
      if falsy (Some o) || bool_decide (length rs = 0%nat) then (invalid_request, st)
      else
        let orgs :=
          if decide (is_Some (orgRepositories st !! o)) then orgRepositories st
          else <[o := []]> (orgRepositories st) in
        let notInstalledRepos :=
          filter (λ repo, installedRepositories st !! repo = None) rs in
        if bool_decide (0 < length notInstalledRepos)%nat
        then
          ({| status := 400;
              payload := Message
                ("❌ The following repositories have not installed the app and cannot be added: "
                 +:+ Js.join ", " notInstalledRepos) |},
           {| installedRepositories := installedRepositories st; orgRepositories := orgs |})
        else
          (json_response (Message (added_message v o rs)),
           {| installedRepositories := installedRepositories st;
              orgRepositories := foldl (add_unless_listed o) orgs rs |})
  | _, _ => (invalid_request, st)
  end.

(** ** Asynchronous code: the maps and the outside world are threaded *)

Section Async.
Context `{Platform}.

Definition io (A : Type) : Type := registry * world → completion A * (registry * world).

Definition io_ret {A} (a : A) : io A := λ s, (Returned a, s).

Definition io_bind {A B} (m : io A) (k : A → io B) : io B :=
  λ s, match m s with
       | (Returned a, s') => k a s'
       | (Threw e, s') => (Threw e, s')
       end.

(** [try { m } catch (error) { h }] *)
Definition try_catch {A} (m : io A) (h : js_error → io A) : io A :=
  λ s, match m s with
       | (Returned a, s') => (Returned a, s')
       | (Threw e, s') => h e s'
       end.

(** Reading the two maps. *)
Definition read_registry : io registry := λ s, (Returned s.1, s).

(** A synchronous handler: it sees and updates the maps only. *)
Definition sync {A} (h : registry → A * registry) : io A :=
  λ s, let '(a, st) := h s.1 in (Returned a, (st, s.2)).

(** [await] of a call to the outside world; a rejection is thrown. *)
Definition await {A} (call : world → completion A * world) : io A :=
  λ s, let '(r, w) := call s.2 in (r, (s.1, w)).

End Async.

Notation "'do!' x := m 'in' k" := (io_bind m (λ x, k))
  (at level 10, x name, m at level 100, k at level 200).

Section Server.
Context `{Platform}.

(** The payload is built from the clock and the environment, both of which
    belong to the outside world. *)
Definition generateGitHubJWT : io string := await sign_jwt.

Definition getOctokit (installationId : Z) : io octokit :=
  do! jwtToken := generateGitHubJWT in
  do! token := await (request_access_token (new_octokit jwtToken) installationId) in
  io_ret (new_octokit token).

Definition fetch_failed : fetched :=
  {| f_codeql := Absent; f_dependabot := Absent;
     f_error := Some "Failed to fetch security reports" |}.

Definition fetchSecurityReports (client : octokit) (owner repo : option string)
    : io fetched :=
  try_catch
    (do! codeqlAlerts := await (request_alerts client CodeScanningAlerts owner repo) in
     do! dependabotAlerts := await (request_alerts client DependabotAlerts owner repo) in
     io_ret
       {| f_codeql :=
            if bool_decide (0 < length codeqlAlerts)%nat then Alerts codeqlAlerts
            else Text "✅ No CodeQL alerts";
          f_dependabot :=
            if bool_decide (0 < length dependabotAlerts)%nat then Alerts dependabotAlerts
            else Text "✅ No Dependabot alerts";
          f_error := None |})
    (λ _, io_ret fetch_failed).

(** The [for ... of] loop of [/checkIfSafeToUse], with [reports] as built so
    far. An installation id that is missing or 0 is falsy: [continue]. *)
Fixpoint collect_reports (repos : list string) (reports : list report)
    : io (list report) :=
  match repos with
  | [] => io_ret reports
  | name :: rest =>
      let pieces := Js.split_slash name in
      do! st := read_registry in
      match installedRepositories st !! name with
      | Some installationId =>
          if bool_decide (installationId = 0) then collect_reports rest reports
          else
            do! client := getOctokit installationId in
            do! fetched := fetchSecurityReports client (pieces !! 0%nat) (pieces !! 1%nat) in
            collect_reports rest (reports ++ [spread name fetched])
      | None => collect_reports rest reports
      end
  end.

(** [/checkIfSafeToUse]; the two copies differ in the shape of the answer. *)
Definition checkIfSafeToUse (v : version) (org : option string) : io response :=
  do! st := read_registry in
  match org ≫= (orgRepositories st !!.) with
  | None =>
      io_ret {| status := 404;
                payload := Message ("❌ No repositories found for org: " +:+ show org) |}
  | Some repos =>
      do! reports := collect_reports repos [] in
      io_ret (json_response
                match v with
                | V1 => Reports reports
                | V2 => OrgReports org reports
                end)
  end.

(** What the webhook handler reads of the provider's payload. *)
Record webhook_payload := {
  repositories : list string;       (* [repo.full_name] of each listed repository *)
  account_login : string;           (* [installation.account.login] *)
  installation_id : Z;              (* [installation.id] *)
  repository_full_name : string     (* [repository.full_name] *)
}.

Definition alert_event (event : string) : bool :=
  bool_decide (event = "push") || bool_decide (event = "pull_request")
  || bool_decide (event = "dependabot_alert") || bool_decide (event = "codeql_alert").

(** The [forEach] of an [installation] event. *)
Definition install (p : webhook_payload) (st : registry) : registry :=
  foldl (λ st repo, addRepository repo (account_login p) (installation_id p) st)
        st (repositories p).

(** [/webhook]. In the first copy an alert event starts
    [checkRepoSafetyAndReport] without waiting for it: that chain runs after
    the acknowledgement, never writes the maps, and is not part of the
    handler. The second copy fetches and drops the report before it
    answers. *)
Definition webhook (v : version) (event : string) (p : webhook_payload) : io response :=
  do! _ := sync (λ st,
             (tt, if bool_decide (event = "installation") then install p st else st)) in
  do! _ :=
    match v with
    | V1 => io_ret tt
    | V2 =>
        if alert_event event then
          let pieces := Js.split_slash (repository_full_name p) in
          try_catch
            (do! client := getOctokit (installation_id p) in
             do! _ := fetchSecurityReports client (pieces !! 0%nat) (pieces !! 1%nat) in
             io_ret tt)
            (λ _, io_ret tt)
        else io_ret tt
    end in
  io_ret {| status := 200;
            payload := Plain match v with
                             | V1 => "Webhook received"
                             | V2 => "✅ Webhook received"
                             end |}.

(** The four routes. *)
Inductive request :=
  | GetCheckIfAdded (repoUrl : option string)
  | PostAddOrgWithRepos (req : registration)
  | GetCheckIfSafeToUse (org : option string)
  | PostWebhook (event : string) (p : webhook_payload).

Definition handle (v : version) (rq : request) : io response :=
  match rq with
  | GetCheckIfAdded repoUrl => sync (checkIfAdded repoUrl)
  | PostAddOrgWithRepos req => sync (addOrgWithRepos v req)
  | GetCheckIfSafeToUse org => checkIfSafeToUse v org
  | PostWebhook event p => webhook v event p
  end.

(** The maps after a sequence of requests, handled one after the other;
    a handler that throws leaves the maps as it had them by then. Whether
    the process survives an exception that no handler catches is left to
    the runtime: [serve] goes on, so the states it reaches include those of
    a server that stops there. *)
Fixpoint serve (v : version) (rqs : list request) (s : registry * world)
    : registry * world :=
  match rqs with
  | [] => s
  | rq :: rest => serve v rest (handle v rq s).2
  end.

(** Every request of the sequence is answered: no handler throws. *)
Fixpoint all_answered (v : version) (rqs : list request) (s : registry * world)
    : Prop :=
  match rqs with
  | [] => True
  | rq :: rest =>
      (∃ res, (handle v rq s).1 = Returned res) ∧ all_answered v rest (handle v rq s).2
  end.

End Server.

(** ** The notification chain of the first copy of [server.js] *)

(** [getOrgForRepo]: the first organization, in the order in which the [Map]
    yields its entries, whose list includes the repository; [None] is [null]. *)
Fixpoint getOrgForRepo (entries : list (string * list string)) (repoFullName : string)
    : option string :=
  match entries with
  | [] => None
  | (orgName, repos) :: rest =>
      if decide (repoFullName ∈ repos) then Some orgName
      else getOrgForRepo rest repoFullName
  end.

Definition certificate_url : string :=
  "https://localhost.digicert.dev/services/v2/order/certificate/123476/vmc/hosting".

Section Notify.
Context `{Platform}.

(** [orgRepositories.entries()]: a [Map] yields its entries in the order of
    their insertion, which a [gmap] does not record. *)
Variable entries : gmap string (list string) → list (string * list string).

(** [axios.post(url, { showSeal })] *)
Variable axios_post : string → bool → world → completion unit * world.

(** A synchronous computation that may throw, inside asynchronous code. *)
Definition io_lift {A} (c : completion A) : io A := λ s, (c, s).

Definition checkRepoSafetyAndReport (repoFullName : string) : io unit :=
  do! st := read_registry in
  match installedRepositories st !! repoFullName with
  | None => io_ret tt
  | Some installationId =>
      if bool_decide (installationId = 0) then io_ret tt
      else if falsy (getOrgForRepo (entries (orgRepositories st)) repoFullName)
      then io_ret tt
      else
        try_catch
          (do! client := getOctokit installationId in
           let pieces := Js.split_slash repoFullName in
           do! report := fetchSecurityReports client (pieces !! 0%nat) (pieces !! 1%nat) in
           do! verdicts := io_lift (analyzeReports (ReportArray [spread repoFullName report])) in
           do! isSafe := io_lift match verdicts !! 0%nat with
                                 | Some v => Returned (safeToUse v)
                                 | None => Threw TypeError
                                 end in
           do! _ := await (axios_post certificate_url isSafe) in
           io_ret tt)
          (λ _, io_ret tt)
  end.

End Notify.

(** ** The webhook on any body *)

(** What a JSON body may lack of what the webhook handler reads: the
    [repositories] array, or an element of it ([None] for a [null] one, else
    its [full_name]); [installation], or its [account] (else the [login] of
    the account), with its [id]; [repository] (else its [full_name]). *)
Record webhook_body := {
  body_repositories : option (list (option string));
  body_installation : option (option string * Z);
  body_repository : option string
}.

(** The body that has every member, with the values of a payload. *)
Definition complete_body (p : webhook_payload) : webhook_body :=
  {| body_repositories := Some (Some <$> repositories p);
     body_installation := Some (Some (account_login p), installation_id p);
     body_repository := Some (repository_full_name p) |}.

Section AnyBody.
Context `{Platform}.

(** The [forEach] of an [installation] event: the three arguments of
    [addRepository] are read for each element in turn, and reading a member
    of [null] or of [undefined] throws a [TypeError]. *)
Fixpoint add_each (b : webhook_body) (repos : list (option string)) : io unit :=
  match repos with
  | [] => io_ret tt
  | repo :: rest =>
      match repo, body_installation b with
      | Some full_name, Some (Some login, id) =>
          do! _ := sync (λ st, (tt, addRepository full_name login id st)) in
          add_each b rest
      | _, _ => io_lift (Threw TypeError)
      end
  end.

(** [/webhook] on any body, with the event header that may be missing. As
    in [webhook], the chain that the first copy starts for an alert event is
    not part of the handler. *)
Definition webhook_any_body (v : version) (event : option string) (b : webhook_body)
    : io response :=
  do! _ :=
    (if bool_decide (event = Some "installation") then
       match body_repositories b with
       | Some repos => add_each b repos
       | None => io_lift (Threw TypeError)
       end
     else io_ret tt) in
  do! _ :=
    (if from_option alert_event false event then
       match body_repository b with
       | None => io_lift (Threw TypeError)
       | Some name =>
           match v with
           | V1 => io_ret tt
           | V2 =>
               match body_installation b with
               | None => io_lift (Threw TypeError)
               | Some (_, installationId) =>
                   let pieces := Js.split_slash name in
                   try_catch
                     (do! client := getOctokit installationId in
                      do! _ := fetchSecurityReports client
                                 (pieces !! 0%nat) (pieces !! 1%nat) in
                      io_ret tt)
                     (λ _, io_ret tt)
               end
           end
       end
     else io_ret tt) in
  io_ret {| status := 200;
            payload := Plain match v with
                             | V1 => "Webhook received"
                             | V2 => "✅ Webhook received"
                             end |}.

End AnyBody.

(** ** Two concrete platforms, to run the handlers on *)

(** Nothing can be signed and every request is rejected. *)
Definition offline : Platform :=
  {| world := unit;
     octokit := unit;
     sign_jwt := λ w, (Threw Rejected, w);
     new_octokit := λ _, tt;
     request_access_token := λ _ _ w, (Threw Rejected, w);
     request_alerts := λ _ _ _ _ w, (Threw Rejected, w) |}.

Definition sample_alert : alert := [("number", JNum 1); ("state", JStr "open")].

(** The world is the list of answers the alert listings will give, in order;
    once it is used up they are rejected. Tokens are always granted. *)
Definition scripted : Platform :=
  {| world := list (completion (list alert));
     octokit := string;
     sign_jwt := λ w, (Returned "jwt", w);
     new_octokit := λ auth, auth;
     request_access_token := λ _ _ w, (Returned "token", w);
     request_alerts := λ _ _ _ _ w,
       match w with
       | [] => (Threw Rejected, [])
       | answer :: w' => (answer, w')
       end |}.

(** A certificate service that accepts every post, for the scripted platform. *)
Definition accepting_post (url : string) (showSeal : bool)
    (w : list (completion (list alert))) : completion unit * list (completion (list alert)) :=
  (Returned tt, w).

(** An [installation] event of the organization [acme] with two repositories. *)
Definition acme_installation : webhook_payload :=
  {| repositories := ["acme/api"; "acme/web"];
     account_login := "acme";
     installation_id := 7;
     repository_full_name := "acme/api" |}.

(** ** Vocabulary of the properties *)

(** [needle] occurs in [hay]. *)
Definition contains (needle hay : string) : Prop :=
  ∃ before after, hay = before +:+ needle +:+ after.

(** A field is clear when it is a string in which the marker occurs. *)
Definition clear (f : field) : Prop :=
  ∃ s, f = Text s ∧ contains clear_marker s.

(** The containment checks that [classify] makes on a report are all made on
    a string or a list: the one on [dependabot] is made only when [codeql]
    is clear. *)
Definition checkable (r : report) : Prop :=
  codeql r ≠ Absent ∧ (clear (codeql r) → dependabot r ≠ Absent).

(** The shape of a report whose fetch failed: an [error] and neither list. *)
Definition failure_shape (r : report) : Prop :=
  codeql r = Absent ∧ dependabot r = Absent ∧ is_Some (error r).

(** Every repository in some organization's list is installed. *)
Definition listed_are_installed (st : registry) : Prop :=
  ∀ o l r, orgRepositories st !! o = Some l → r ∈ l →
           is_Some (installedRepositories st !! r).

(** A repository of a list gets a report when its installation id is truthy:
    recorded, and not 0. *)
Definition reportable (st : registry) (name : string) : Prop :=
  default 0 (installedRepositories st !! name) ≠ 0.

(** An entry of the answer of [/checkIfSafeToUse]: both fields and no
    [error], or the [error] alone. *)
Definition entry_shape (r : report) : Prop :=
  (error r = None ∧ codeql r ≠ Absent ∧ dependabot r ≠ Absent) ∨ failure_shape r.

Section Effects.
Context `{Platform}.

(** The computation leaves the two maps as they are. *)
Definition frames_registry {A} (m : io A) : Prop :=
  ∀ s, (m s).2.1 = s.1.

(** Signing and the exchange for an access token never fail. *)
Definition minting_succeeds : Prop :=
  (∀ w, ∃ jwt w', sign_jwt w = (Returned jwt, w'))
  ∧ (∀ client i w, ∃ token w', request_access_token client i w = (Returned token, w')).

(** A call of [getOctokit] that the loop of [/checkIfSafeToUse] makes on the
    list [repos], started in the world [w]: for the element [name], which
    has the truthy installation id [i], in the world [w0] that the elements
    before it have left. *)
Definition mint_call (repos : list string) (st : registry) (w : world)
    (name : string) (i : Z) (w0 : world) : Prop :=
  ∃ before after reports,
    repos = before ++ name :: after
    ∧ collect_reports before [] (st, w) = (Returned reports, (st, w0))
    ∧ installedRepositories st !! name = Some i ∧ i ≠ 0.

End Effects.

(** No organization's list holds a repository twice. *)
Definition duplicate_free (st : registry) : Prop :=
  ∀ o l, orgRepositories st !! o = Some l → NoDup l.

(** A registration that passes the checks of [/addOrgWithRepos]. *)
Definition acceptable (req : registration) (st : registry) : Prop :=
  ∃ o rs, org req = Some o ∧ o ≠ "" ∧ repos req = Some rs ∧ rs ≠ []
          ∧ Forall (λ repo, is_Some (installedRepositories st !! repo)) rs.

(** The body has [installation] and its [account]. *)
Definition installation_complete (b : webhook_body) : Prop :=
  ∃ login id, body_installation b = Some (Some login, id).

(** The body lacks a member that the handler reads for the event: for an
    [installation] event the [repositories], one of its elements, or (when
    there is an element) [installation] or its [account]; for an alert
    event [repository], or in the second copy [installation]. *)
Definition lacks_member (v : version) (event : option string) (b : webhook_body) : Prop :=
  (event = Some "installation"
   ∧ ∀ repos, body_repositories b = Some repos →
              None ∈ repos ∨ (repos ≠ [] ∧ ¬ installation_complete b))
  ∨ (from_option alert_event false event = true
     ∧ (body_repository b = None ∨ (v = V2 ∧ body_installation b = None))).

(** ** Strings *)

Lemma append_nil (t : string) : "" +:+ t = t.
Proof. reflexivity. Qed.

Lemma append_cons (c : ascii) (s t : string) : String c s +:+ t = String c (s +:+ t).
Proof. reflexivity. Qed.

Lemma prefix_spec (p s : string) :
  String.prefix p s = true ↔ ∃ t, s = p +:+ t.
Proof.
  revert s. induction p as [|a p IH]; intros [|b s]; simpl.
  - split; [intros _; by eexists | done].
  - split; [intros _; by eexists | done].
  - split; [done | intros [t Ht]; discriminate].
  - setoid_rewrite append_cons. destruct (ascii_dec a b) as [->|Hne].
    + rewrite IH. split; intros [t Ht]; exists t; congruence.
    + split; [done | intros [t Ht]; congruence].
Qed.

Lemma includes_nil (needle : string) :
  Js.includes needle "" = String.prefix needle "" || false.
Proof. reflexivity. Qed.

Lemma includes_cons (needle : string) (c : ascii) (hay : string) :
  Js.includes needle (String c hay)
  = String.prefix needle (String c hay) || Js.includes needle hay.
Proof. reflexivity. Qed.

Lemma includes_spec (needle hay : string) :
  Js.includes needle hay = true ↔ contains needle hay.
Proof.
  induction hay as [|c hay IH];
    [rewrite includes_nil | rewrite includes_cons];
    rewrite orb_true_iff, prefix_spec.
  - split.
    + intros [[t Ht]|?]; [by exists "", t | done].
    + intros [[|c a] [b Hb]]; [left; by exists b | discriminate].
  - rewrite IH. split.
    + intros [[t Ht]|(a & b & Hab)]; [by exists "", t |].
      exists (String c a), b. by rewrite append_cons, Hab.
    + intros [[|c' a] [b Hb]]; [left; by exists b |].
      right. exists a, b. rewrite append_cons in Hb. congruence.
Qed.

(** ** The classifier *)

Lemma includes_Returned (f : field) (b : bool) :
  includes f clear_marker = Returned b → (b = true ↔ clear f).
Proof.
  destruct f as [|s|l]; simpl; intros Hb; simplify_eq.
  - rewrite includes_spec. split.
    + intros Hs. by exists s.
    + intros (s' & ? & Hs'). by simplify_eq.
  - assert (existsb (λ a, same_value_zero a clear_marker) l = false) as ->
      by (by induction l).
    split; [done | intros (s & ? & _); discriminate].
Qed.

Lemma includes_Threw (f : field) (needle : string) (e : js_error) :
  includes f needle = Threw e → f = Absent ∧ e = TypeError.
Proof. destruct f; simpl; intros ?; by simplify_eq. Qed.

Lemma array_map_Returned {A B} (f : A → completion B) (l : list A) (ys : list B) :
  array_map f l = Returned ys ↔ Forall2 (λ x y, f x = Returned y) l ys.
Proof.
  revert ys. induction l as [|x l IH]; intros ys; simpl.
  - split; [intros [= <-]; constructor | by inversion 1].
  - destruct (f x) as [y|e] eqn:Hx; simpl.
    + destruct (array_map f l) as [ys'|e] eqn:Hl; simpl.
      * split.
        -- intros [= <-]. constructor; [done | by apply IH].
        -- inversion 1 as [|? y' ? ys'' Hy Hys]; simplify_eq.
           apply IH in Hys. congruence.
      * split; [done |].
        inversion 1 as [|? y' ? ys'' Hy Hys]; simplify_eq.
        apply IH in Hys. discriminate.
    + split; [done | inversion 1; congruence].
Qed.

Lemma array_map_Threw {A B} (f : A → completion B) (l : list A) (e : js_error) :
  array_map f l = Threw e → ∃ x, x ∈ l ∧ f x = Threw e.
Proof.
  induction l as [|x l IH]; simpl; [done |].
  destruct (f x) as [y|e'] eqn:Hx; simpl.
  - destruct (array_map f l) as [ys|e'] eqn:Hl; simpl; [done |].
    intros [= ->]. destruct IH as (x' & ? & ?); [done |].
    exists x'. split; [by right | done].
  - intros [= ->]. exists x. split; [by left | done].
Qed.

(** The two verdicts of the examples of the classifier. *)
Example analyzeReports_clear :
  analyzeReports
    (ReportArray [ {| repoFullName := "a/b"; codeql := Text "✅ No CodeQL alerts";
                      dependabot := Text "✅ No Dependabot alerts"; error := None |} ])
  = Returned [ {| v_repoFullName := "a/b"; safeToUse := true;
                  message := "✅ a/b is safe to use." |} ].
Proof. reflexivity. Qed.

Example analyzeReports_alerts :
  analyzeReports
    (ReportArray [ {| repoFullName := "a/b"; codeql := Alerts [sample_alert];
                      dependabot := Text "✅ No Dependabot alerts"; error := None |} ])
  = Returned [ {| v_repoFullName := "a/b"; safeToUse := false;
                  message := "❌ a/b is NOT safe to use due to security alerts." |} ].
Proof. reflexivity. Qed.

Lemma classify_Returned (r : report) (v : verdict) :
  classify r = Returned v →
  v_repoFullName v = repoFullName r
  ∧ (safeToUse v = true ↔ clear (codeql r) ∧ clear (dependabot r))
  ∧ (¬ (clear (codeql r) ∧ clear (dependabot r)) →
     safeToUse v = false ∧ String.prefix failure_marker (message v) = true)
  ∧ checkable r.
Proof.
  unfold classify, checkable.
  destruct (includes (codeql r) clear_marker) as [c|e] eqn:Hc; simpl; [|done].
  assert (codeql r ≠ Absent) as Hpresent
    by (intros Habs; rewrite Habs in Hc; discriminate).
  apply includes_Returned in Hc. destruct c; simpl.
  - destruct (includes (dependabot r) clear_marker) as [d|e] eqn:Hd; simpl; [|done].
    assert (dependabot r ≠ Absent)
      by (intros Habs; rewrite Habs in Hd; discriminate).
    apply includes_Returned in Hd. intros [= <-]; simpl.
    destruct d; simpl; repeat split; try done; tauto.
  - intros [= <-]; simpl. repeat split; try done; try tauto.
    intros Hclear. by apply Hc in Hclear.
Qed.

Lemma classify_Threw (r : report) (e : js_error) :
  classify r = Threw e → e = TypeError ∧ ¬ checkable r.
Proof.
  unfold classify, checkable.
  destruct (includes (codeql r) clear_marker) as [c|e'] eqn:Hc; simpl.
  - pose proof (includes_Returned _ _ Hc) as Hclear. destruct c; simpl.
    + destruct (includes (dependabot r) clear_marker) as [d|e'] eqn:Hd; simpl; [done |].
      apply includes_Threw in Hd as [Hd ->]. intros [= <-].
      split; [done |]. intros [_ Hdep]. apply Hdep; [by apply Hclear | done].
    + done.
  - apply includes_Threw in Hc as [Hc ->]. intros [= <-].
    split; [done |]. by intros [Hcq _].
Qed.

Lemma classify_checkable (r : report) :
  checkable r → ∃ v, classify r = Returned v.
Proof.
  intros Hr. destruct (classify r) as [v|e] eqn:Hv; [by exists v |].
  by apply classify_Threw in Hv as [_ ?].
Qed.

(** C1. Whenever [analyzeReports] returns, its argument is a list and the
    verdicts answer the reports one for one: a verdict keeps the name of its
    report, has [safeToUse = true] exactly when both the [codeql] and the
    [dependabot] field of the report are strings in which the marker occurs,
    and, when either field is not, has [safeToUse = false] and a message that
    starts with the failure marker. *)
Theorem analyzeReports_safe_iff_clear (input : report_list) (vs : list verdict) :
  analyzeReports input = Returned vs →
  ∃ l, input = ReportArray l ∧
    Forall2 (λ r v,
      v_repoFullName v = repoFullName r
      ∧ (safeToUse v = true ↔ clear (codeql r) ∧ clear (dependabot r))
      ∧ (¬ (clear (codeql r) ∧ clear (dependabot r)) →
         safeToUse v = false ∧ String.prefix failure_marker (message v) = true))
      l vs.
Proof.
  destruct input as [|[|r l]]; try done.
  change (analyzeReports (ReportArray (r :: l))) with (array_map classify (r :: l)).
  intros Hvs%array_map_Returned. exists (r :: l). split; [done |].
  eapply Forall2_impl; [exact Hvs |].
  intros r' v' Hv. apply classify_Returned in Hv. tauto.
Qed.

Lemma analyzeReports_safe_iff_clear_witness :
  ∃ l,
    ReportArray
      [ {| repoFullName := "a/b"; codeql := Text "✅ No CodeQL alerts";
           dependabot := Text "✅ No Dependabot alerts"; error := None |};
        {| repoFullName := "a/c"; codeql := Alerts [sample_alert];
           dependabot := Absent; error := None |} ] = ReportArray l ∧
    Forall2 (λ r v,
      v_repoFullName v = repoFullName r
      ∧ (safeToUse v = true ↔ clear (codeql r) ∧ clear (dependabot r))
      ∧ (¬ (clear (codeql r) ∧ clear (dependabot r)) →
         safeToUse v = false ∧ String.prefix failure_marker (message v) = true))
      l
      [ {| v_repoFullName := "a/b"; safeToUse := true;
           message := "✅ a/b is safe to use." |};
        {| v_repoFullName := "a/c"; safeToUse := false;
           message := "❌ a/c is NOT safe to use due to security alerts." |} ].
Proof. apply analyzeReports_safe_iff_clear. reflexivity. Defined.

(** The fetcher's two sentinels are clear and no list of alerts is. *)
Lemma sentinels_clear :
  clear (Text "✅ No CodeQL alerts") ∧ clear (Text "✅ No Dependabot alerts").
Proof.
  split; eexists; (split; [done |]); apply includes_spec; reflexivity.
Qed.

Lemma alerts_not_clear (l : list alert) : ¬ clear (Alerts l).
Proof. by intros (s & ? & _). Qed.

Lemma absent_not_clear : ¬ clear Absent.
Proof. by intros (s & ? & _). Qed.

Lemma analyzeReports_list (l : list report) :
  l ≠ [] → analyzeReports (ReportArray l) = array_map classify l.
Proof. by destruct l. Qed.

Lemma array_map_classify_Threw (l : list report) (e : js_error) :
  array_map classify l = Threw e → e = TypeError ∧ Exists (λ r, ¬ checkable r) l.
Proof.
  intros (r & Hr & Hthrow)%array_map_Threw.
  apply classify_Threw in Hthrow as [-> Hno].
  split; [done |]. apply Exists_exists. eauto.
Qed.

Lemma array_map_classify_Returned (l : list report) (vs : list verdict) :
  array_map classify l = Returned vs → Forall checkable l ∧ length vs = length l.
Proof.
  intros Hvs%array_map_Returned. split.
  - induction Hvs as [|r v l vs Hv _ IH]; constructor; [|done].
    by apply classify_Returned in Hv as (_ & _ & _ & ?).
  - symmetry. by eapply Forall2_length.
Qed.

(** C6, as amended. [analyzeReports] throws its own error exactly on an
    argument that is not a list or is the empty list; on a non-empty list it
    throws a [TypeError] exactly when some report has no [codeql], or has a
    clear [codeql] and no [dependabot], and otherwise it returns one verdict
    for each report. *)
Theorem analyzeReports_throws_iff (input : report_list) :
  (analyzeReports input = Threw invalid_input
     ↔ input = NotAnArray ∨ input = ReportArray [])
  ∧ (analyzeReports input = Threw TypeError
     ↔ ∃ l, input = ReportArray l ∧ Exists (λ r, ¬ checkable r) l)
  ∧ ((∃ l vs, input = ReportArray l ∧ analyzeReports input = Returned vs
              ∧ length vs = length l)
     ↔ ∃ l, input = ReportArray l ∧ l ≠ [] ∧ Forall checkable l).
Proof.
  destruct input as [|l].
  { repeat split; try done; try (by left).
    - by intros (l & ? & _).
    - by intros (l & vs & ? & _).
    - by intros (l & ? & _). }
  destruct (decide (l = [])) as [->|Hne].
  { repeat split; try done; try (by right).
    - intros (l & [= <-] & Hex). by apply Exists_nil in Hex.
    - by intros (l & vs & _ & ? & _).
    - by intros (l & [= <-] & ? & _). }
  rewrite (analyzeReports_list l Hne).
  destruct (array_map classify l) as [vs|e] eqn:Hl.
  - apply array_map_classify_Returned in Hl as [Hall Hlen].
    repeat split; try done.
    + intros [?|[= ->]]; done.
    + intros (l' & [= <-] & Hex). apply Exists_exists in Hex as (r & Hr & Hno).
      destruct Hno. rewrite Forall_forall in Hall. by apply Hall.
    + intros _. by exists l.
    + intros _. by exists l, vs.
  - apply array_map_classify_Threw in Hl as [-> Hex].
    repeat split; try done.
    + intros [?|[= ->]]; done.
    + intros _. by exists l.
    + by intros (l' & vs & _ & ? & _).
    + intros (l' & [= <-] & _ & Hall). apply Exists_exists in Hex as (r & Hr & Hno).
      destruct Hno. rewrite Forall_forall in Hall. by apply Hall.
Qed.

(** C6 does not hold as stated: a list of one report whose fetch failed is
    neither empty nor a non-list, and the classifier throws on it. *)
Lemma analyzeReports_throws_on_failed_report :
  ¬ ((∃ e, analyzeReports (ReportArray [spread "a/b" fetch_failed]) = Threw e)
     ↔ (ReportArray [spread "a/b" fetch_failed] = NotAnArray
        ∨ ReportArray [spread "a/b" fetch_failed] = ReportArray [])).
Proof.
  intros [Hthrows _]. destruct Hthrows as [?|?]; [|done..].
  by exists TypeError.
Qed.

(** C10. On a list that holds a report in the shape of a failed fetch, the
    classifier throws a [TypeError] and returns no verdict at all. *)
Theorem analyzeReports_failure_shape_throws (l : list report) (r : report) :
  r ∈ l → failure_shape r → analyzeReports (ReportArray l) = Threw TypeError.
Proof.
  intros Hr (Hcodeql & _ & _).
  assert (l ≠ []) as Hne by (intros ->; by apply not_elem_of_nil in Hr).
  rewrite (analyzeReports_list l Hne).
  destruct (array_map classify l) as [vs|e] eqn:Hl.
  - apply array_map_classify_Returned in Hl as [Hall _].
    rewrite Forall_forall in Hall. apply Hall in Hr.
    by destruct Hr as [? _].
  - by apply array_map_classify_Threw in Hl as [-> _].
Qed.

Lemma analyzeReports_failure_shape_throws_witness :
  analyzeReports
    (ReportArray
       [ {| repoFullName := "a/b"; codeql := Text "✅ No CodeQL alerts";
            dependabot := Text "✅ No Dependabot alerts"; error := None |};
         spread "a/c" fetch_failed ])
  = Threw TypeError.
Proof.
  apply (analyzeReports_failure_shape_throws _ (spread "a/c" fetch_failed)).
  - apply list_elem_of_In. simpl. right. left. reflexivity.
  - repeat split. by exists "Failed to fetch security reports".
Defined.

(** ** The registry *)

Lemma addRepository_installed (repo o : string) (i : Z) (st : registry) (x : string) :
  installedRepositories (addRepository repo o i st) !! x
  = if decide (x = repo) then Some i else installedRepositories st !! x.
Proof.
  unfold addRepository; cbn [installedRepositories]. case_decide as Hx.
  - subst. apply lookup_insert_eq.
  - by apply lookup_insert_ne.
Qed.

Lemma addRepository_orgs (repo o : string) (i : Z) (st : registry) (x : string) :
  orgRepositories (addRepository repo o i st) !! x
  = if decide (x = o) then Some (default [] (orgRepositories st !! o) ++ [repo])
    else orgRepositories st !! x.
Proof.
  unfold addRepository; cbn [orgRepositories].
  destruct (decide (x = o)) as [->|Hx].
  - rewrite lookup_alter_eq. case_decide as Hhas.
    + by destruct Hhas as [l ->].
    + rewrite lookup_insert_eq. apply eq_None_not_Some in Hhas. by rewrite Hhas.
  - rewrite lookup_alter_ne by done. case_decide; [done |].
    by apply lookup_insert_ne.
Qed.

Lemma install_installed (p : webhook_payload) (st : registry) (x : string) :
  installedRepositories (install p st) !! x
  = if decide (x ∈ repositories p) then Some (installation_id p)
    else installedRepositories st !! x.
Proof.
  unfold install. revert st.
  induction (repositories p) as [|repo rs IH] using rev_ind; intros st.
  - by rewrite decide_False by apply not_elem_of_nil.
  - rewrite foldl_snoc, addRepository_installed, IH.
    destruct (decide (x = repo)) as [->|Hne].
    + by rewrite decide_True by (apply elem_of_app; right; by left).
    + destruct (decide (x ∈ rs)) as [Hin|Hout].
      * by rewrite decide_True by (apply elem_of_app; by left).
      * rewrite decide_False; [done |].
        intros [?|Hlast%list_elem_of_singleton]%elem_of_app; done.
Qed.

Lemma install_orgs (p : webhook_payload) (st : registry) (x : string) :
  orgRepositories (install p st) !! x
  = if decide (x = account_login p ∧ repositories p ≠ [])
    then Some (default [] (orgRepositories st !! x) ++ repositories p)
    else orgRepositories st !! x.
Proof.
  unfold install. revert st.
  induction (repositories p) as [|repo rs IH] using rev_ind; intros st.
  - by rewrite decide_False by (by intros [_ ?]).
  - rewrite foldl_snoc, addRepository_orgs.
    destruct (decide (x = account_login p)) as [->|Hx].
    + rewrite IH, (decide_True (P := _ ∧ rs ++ [repo] ≠ []))
        by (split; [done | by destruct rs]).
      destruct (decide (rs = [])) as [->|Hrs].
      * by rewrite decide_False by (by intros [_ ?]).
      * rewrite decide_True by done. simpl. by rewrite <-(assoc_L (++)).
    + rewrite IH. by rewrite !decide_False by (by intros [? _]).
Qed.

Lemma filter_agree {A} (P Q : A → Prop) `{!∀ x, Decision (P x), !∀ x, Decision (Q x)}
    (l : list A) :
  (∀ x, x ∈ l → P x ↔ Q x) → filter P l = filter Q l.
Proof.
  induction l as [|a l IH]; intros Hl; [done |].
  rewrite !filter_cons, IH by (intros x Hx; apply Hl; by right).
  pose proof (Hl a ltac:(by left)) as Ha.
  destruct (decide (P a)) as [HP|HP].
  - by rewrite decide_True by tauto.
  - by rewrite decide_False by tauto.
Qed.

Lemma install_size (p : webhook_payload) (st : registry) :
  NoDup (repositories p) →
  size (installedRepositories (install p st))
  = (size (installedRepositories st)
     + length (filter (λ r, installedRepositories st !! r = None) (repositories p)))%nat.
Proof.
  unfold install. revert st.
  induction (repositories p) as [|repo rs IH]; intros st Hnd.
  - simpl. by rewrite Nat.add_0_r.
  - apply NoDup_cons in Hnd as [Hfresh Hnd].
    change (foldl ?f st (repo :: rs)) with (foldl f (f st repo) rs).
    rewrite IH by done.
    rewrite (filter_agree _ (λ r, installedRepositories st !! r = None) rs).
    2:{ intros r Hr. rewrite addRepository_installed.
        rewrite decide_False; [done |]. by intros ->. }
    change (installedRepositories (addRepository repo _ _ st))
      with (<[repo:=installation_id p]> (installedRepositories st)).
    rewrite map_size_insert, filter_cons.
    destruct (installedRepositories st !! repo) eqn:Hrepo.
    + by rewrite decide_False.
    + rewrite decide_True by done. simpl. lia.
Qed.

Lemma webhook_installation `{Platform} (v : version) (p : webhook_payload)
    (st : registry) (w : world) :
  ∃ res, status res = 200%nat
         ∧ webhook v "installation" p (st, w) = (Returned res, (install p st, w)).
Proof. destruct v; eexists; (split; [|reflexivity]); done. Qed.

(** The list of an organization after [addRepository]: what it was, and the
    repository once more. *)
Lemma addRepository_appends (repo o : string) (i : Z) (st : registry) (l : list string) :
  orgRepositories st !! o = Some l →
  orgRepositories (addRepository repo o i st) !! o = Some (l ++ [repo]).
Proof. intros Hl. by rewrite addRepository_orgs, decide_True, Hl. Qed.

(** The other insertion path looks first. *)
Lemma add_unless_listed_listed (o repo : string) (orgs : gmap string (list string))
    (l : list string) :
  orgs !! o = Some l → repo ∈ l → add_unless_listed o orgs repo = orgs.
Proof. intros Hl Hrepo. unfold add_unless_listed. by rewrite Hl, decide_True. Qed.

Lemma addOrgWithRepos_again (v : version) (o : string) (rs l : list string)
    (st : registry) :
  o ≠ "" → rs ≠ [] →
  Forall (λ repo, is_Some (installedRepositories st !! repo)) rs →
  orgRepositories st !! o = Some l → Forall (λ repo, repo ∈ l) rs →
  (addOrgWithRepos v {| org := Some o; repos := Some rs |} st).2 = st.
Proof.
  intros Ho Hrs Hinstalled Hl Hlisted. unfold addOrgWithRepos; simpl.
  rewrite bool_decide_eq_false_2 by done.
  rewrite bool_decide_eq_false_2 by (by destruct rs).
  rewrite decide_True by (by rewrite Hl). simpl.
  assert (filter (λ repo, installedRepositories st !! repo = None) rs = []) as ->.
  { clear Hrs Hlisted. induction Hinstalled as [|repo rs [i Hi] _ IH]; [done |].
    by rewrite filter_cons_False by (by rewrite Hi). }
  simpl. destruct st as [installed orgs]; simpl in *. f_equal.
  clear Hrs Hinstalled. induction Hlisted as [|repo rs Hrepo _ IH]; [done |].
  simpl. by rewrite (add_unless_listed_listed _ _ _ l).
Qed.

(** C3, on the code. One [installation] event delivered twice, as the
    provider does when a delivery is repeated: every repository of the event
    is then twice in the list of the organization. *)
Lemma installation_delivered_twice :
  orgRepositories
    (serve (H := offline) V1
       [PostWebhook "installation" acme_installation;
        PostWebhook "installation" acme_installation]
       (empty_registry, tt)).1 !! "acme"
  = Some ["acme/api"; "acme/web"; "acme/api"; "acme/web"].
Proof. vm_compute. reflexivity. Qed.

(** C4 does not hold as stated: when the event's two repositories are
    installed and listed already, handling it adds no entry, and leaves the
    list with each of them twice. *)
Lemma installation_replayed_adds_nothing :
  NoDup (repositories acme_installation)
  ∧ ¬ (size (installedRepositories
               (webhook (H := offline) V1 "installation" acme_installation
                  (install acme_installation empty_registry, tt)).2.1)
       = (size (installedRepositories (install acme_installation empty_registry))
          + length (repositories acme_installation))%nat
       ∧ ∃ l, orgRepositories
                (webhook (H := offline) V1 "installation" acme_installation
                   (install acme_installation empty_registry, tt)).2.1 !! "acme"
              = Some l ∧ NoDup l).
Proof.
  split; [compute_done |].
  intros [Hsize _]. vm_compute in Hsize. discriminate.
Qed.

(** C4, as amended. After an [installation] event that lists N distinct
    repositories, each of them is a key of [installedRepositories] with the
    installation id of the event, every other entry is as before, the number
    of entries has grown by the number of listed repositories that were not
    installed before (by N when none was), and the list of the installing
    organization holds all N; that list has no duplicates when it had none
    before and held none of the N. The webhook answers 200. *)
Theorem webhook_installation_registers `{Platform} (v : version) (p : webhook_payload)
    (st : registry) (w : world) :
  NoDup (repositories p) →
  ∃ res st',
    webhook v "installation" p (st, w) = (Returned res, (st', w))
    ∧ status res = 200%nat
    ∧ (∀ r, r ∈ repositories p →
            installedRepositories st' !! r = Some (installation_id p))
    ∧ (∀ r, r ∉ repositories p →
            installedRepositories st' !! r = installedRepositories st !! r)
    ∧ size (installedRepositories st')
      = (size (installedRepositories st)
         + length (filter (λ r, installedRepositories st !! r = None) (repositories p)))%nat
    ∧ ((∀ r, r ∈ repositories p → installedRepositories st !! r = None) →
       size (installedRepositories st')
       = (size (installedRepositories st) + length (repositories p))%nat)
    ∧ (∀ r, r ∈ repositories p →
            ∃ l, orgRepositories st' !! account_login p = Some l ∧ r ∈ l)
    ∧ (NoDup (default [] (orgRepositories st !! account_login p)) →
       (∀ r, r ∈ repositories p →
             r ∉ default [] (orgRepositories st !! account_login p)) →
       NoDup (default [] (orgRepositories st' !! account_login p))).
Proof.
  intros Hnd. destruct (webhook_installation v p st w) as (res & Hres & Hrun).
  exists res, (install p st). repeat split; try done.
  - intros r Hr. by rewrite install_installed, decide_True.
  - intros r Hr. by rewrite install_installed, decide_False.
  - by apply install_size.
  - intros Hfresh. rewrite install_size by done. do 2 f_equal.
    clear Hnd Hrun. induction (repositories p) as [|r rs IH]; [done |].
    rewrite filter_cons_True by (apply Hfresh; by left).
    f_equal. apply IH. intros r' Hr'. apply Hfresh. by right.
  - intros r Hr. rewrite install_orgs.
    rewrite decide_True by (split; [done | by intros Hnil; rewrite Hnil in Hr;
                                             apply elem_of_nil in Hr]).
    eexists. split; [done |]. apply elem_of_app. by right.
  - intros Hold Hnone. rewrite install_orgs.
    destruct (decide (repositories p = [])) as [Hnil|Hsome].
    + by rewrite decide_False by (by intros [_ ?]).
    + rewrite decide_True by done. simpl. apply NoDup_app.
      split; [done |]. split; [|done].
      intros r Hold' Hnew. by apply (Hnone r).
Qed.

Lemma webhook_installation_registers_witness :
  ∃ res st',
    webhook (H := offline) V1 "installation" acme_installation (empty_registry, tt)
    = (Returned res, (st', tt))
    ∧ status res = 200%nat
    ∧ (∀ r, r ∈ repositories acme_installation →
            installedRepositories st' !! r = Some (installation_id acme_installation)).
Proof.
  destruct (webhook_installation_registers (H := offline) V1 acme_installation
              empty_registry tt ltac:(compute_done))
    as (res & st' & Hrun & Hres & Hin & _).
  by exists res, st'.
Defined.

(** C2 does not hold as stated: the batch is rejected, but an organization
    that had no list is left with an empty one. *)
Lemma addOrgWithRepos_rejected_creates_list :
  installedRepositories empty_registry !! "acme/api" = None
  ∧ ¬ (status (addOrgWithRepos V1 {| org := Some "acme"; repos := Some ["acme/api"] |}
                 empty_registry).1 = 400%nat
       ∧ (addOrgWithRepos V1 {| org := Some "acme"; repos := Some ["acme/api"] |}
            empty_registry).2 = empty_registry).
Proof.
  split; [done |]. intros [_ Hsame].
  apply (f_equal (λ st, orgRepositories st !! "acme")) in Hsame.
  vm_compute in Hsame. discriminate.
Qed.

(** C2, as amended. A registration that lists a repository that is not
    installed is answered with 400; [installedRepositories] is unchanged, no
    list that an organization had is changed, and [orgRepositories] differs
    at most in this: when the organization of the request is a non-empty
    string that had no list, it now has the empty list. *)
Theorem addOrgWithRepos_rejects_uninstalled (v : version) (req : registration)
    (st : registry) (rs : list string) (r : string) :
  repos req = Some rs → r ∈ rs → installedRepositories st !! r = None →
  status (addOrgWithRepos v req st).1 = 400%nat
  ∧ installedRepositories (addOrgWithRepos v req st).2 = installedRepositories st
  ∧ (∀ o l, orgRepositories st !! o = Some l →
            orgRepositories (addOrgWithRepos v req st).2 !! o = Some l)
  ∧ orgRepositories (addOrgWithRepos v req st).2
    = match org req with
      | Some o =>
          if decide (o ≠ "" ∧ orgRepositories st !! o = None)
          then <[o := []]> (orgRepositories st)
          else orgRepositories st
      | None => orgRepositories st
      end.
Proof.
  intros Hrepos Hr Hnot. unfold addOrgWithRepos. rewrite Hrepos.
  destruct (org req) as [o|]; [|done]. simpl.
  destruct (decide (o = "")) as [->|Ho].
  { simpl. by repeat split. }
  rewrite bool_decide_eq_false_2 by done.
  rewrite bool_decide_eq_false_2 by (destruct rs; [by apply elem_of_nil in Hr | done]).
  simpl. rewrite bool_decide_eq_true_2.
  2:{ assert (r ∈ filter (λ repo, installedRepositories st !! repo = None) rs) as Hin
        by (by apply list_elem_of_filter).
      destruct (filter _ rs); [by apply elem_of_nil in Hin | simpl; lia]. }
  simpl. destruct (orgRepositories st !! o) as [l|] eqn:Hl.
  - rewrite decide_True by done. rewrite decide_False by (by intros [_ ?]). done.
  - rewrite decide_False by (by intros [? ?]). rewrite decide_True by done.
    repeat split; try done. intros o' l' Hl'.
    rewrite lookup_insert_ne; [done |]. intros <-. congruence.
Qed.

Lemma addOrgWithRepos_rejects_uninstalled_witness :
  status (addOrgWithRepos V1 {| org := Some "acme"; repos := Some ["acme/api"; "acme/web"] |}
            (addRepository "acme/api" "acme" 7 empty_registry)).1 = 400%nat
  ∧ installedRepositories
      (addOrgWithRepos V1 {| org := Some "acme"; repos := Some ["acme/api"; "acme/web"] |}
         (addRepository "acme/api" "acme" 7 empty_registry)).2
    = installedRepositories (addRepository "acme/api" "acme" 7 empty_registry).
Proof.
  destruct (addOrgWithRepos_rejects_uninstalled V1
              {| org := Some "acme"; repos := Some ["acme/api"; "acme/web"] |}
              (addRepository "acme/api" "acme" 7 empty_registry)
              ["acme/api"; "acme/web"] "acme/web")
    as (Hstatus & Hinstalled & _); [reflexivity | | reflexivity | done].
  apply list_elem_of_In. simpl. right. left. reflexivity.
Defined.

(** ** The invariant of the registry *)

Lemma addRepository_invariant (repo o : string) (i : Z) (st : registry) :
  listed_are_installed st → listed_are_installed (addRepository repo o i st).
Proof.
  intros Hinv o' l r Hl Hr. rewrite addRepository_installed.
  destruct (decide (r = repo)) as [->|Hne]; [done |].
  rewrite addRepository_orgs in Hl. destruct (decide (o' = o)) as [->|Ho].
  - simplify_eq. apply elem_of_app in Hr as [Hr|Hr].
    + destruct (orgRepositories st !! o) as [l|] eqn:Hl; simpl in Hr.
      * by apply (Hinv o l).
      * by apply elem_of_nil in Hr.
    + by apply list_elem_of_singleton in Hr.
  - by apply (Hinv o' l).
Qed.

Lemma install_invariant (p : webhook_payload) (st : registry) :
  listed_are_installed st → listed_are_installed (install p st).
Proof.
  unfold install. revert st.
  induction (repositories p) as [|repo rs IH]; intros st Hinv; [done |].
  simpl. by apply IH, addRepository_invariant.
Qed.

Lemma add_unless_listed_invariant (installed : gmap string Z) (o repo : string)
    (orgs : gmap string (list string)) :
  is_Some (installed !! repo) →
  listed_are_installed {| installedRepositories := installed; orgRepositories := orgs |} →
  listed_are_installed {| installedRepositories := installed;
                          orgRepositories := add_unless_listed o orgs repo |}.
Proof.
  intros Hrepo Hinv o' l r; simpl. unfold add_unless_listed.
  destruct (orgs !! o) as [l0|] eqn:Hl0; [|by apply Hinv].
  destruct (decide (repo ∈ l0)); [by apply Hinv |].
  destruct (decide (o' = o)) as [->|Ho].
  - rewrite lookup_insert_eq. intros [= <-] [Hr|Hr]%elem_of_app.
    + by apply (Hinv o l0).
    + apply list_elem_of_singleton in Hr. by subst.
  - rewrite lookup_insert_ne by done. by apply Hinv.
Qed.

Lemma addOrgWithRepos_invariant (v : version) (req : registration) (st : registry) :
  listed_are_installed st → listed_are_installed (addOrgWithRepos v req st).2.
Proof.
  intros Hinv. unfold addOrgWithRepos.
  destruct (org req) as [o|], (repos req) as [rs|]; try done.
  destruct (falsy (Some o) || bool_decide (length rs = 0%nat)); [done |].
  set (orgs := if decide (is_Some (orgRepositories st !! o)) then orgRepositories st
               else <[o:=[]]> (orgRepositories st)).
  assert (listed_are_installed
            {| installedRepositories := installedRepositories st;
               orgRepositories := orgs |}) as Horgs.
  { subst orgs. case_decide as Hhas; [by destruct st |].
    intros o' l r; simpl. destruct (decide (o' = o)) as [->|Ho].
    - rewrite lookup_insert_eq. intros [= <-] Hr. by apply elem_of_nil in Hr.
    - rewrite lookup_insert_ne by done. apply Hinv. }
  case_bool_decide as Hrejected; [done |]. simpl.
  assert (Forall (λ repo, is_Some (installedRepositories st !! repo)) rs) as Hrs.
  { apply Forall_forall. intros repo Hrepo.
    destruct (installedRepositories st !! repo) eqn:Hlookup; [done |].
    destruct Hrejected.
    assert (repo ∈ filter (λ repo, installedRepositories st !! repo = None) rs) as Hin
      by (by apply list_elem_of_filter).
    destruct (filter _ rs); [by apply elem_of_nil in Hin | simpl; lia]. }
  clear Hrejected. clearbody orgs. revert orgs Horgs.
  induction Hrs as [|repo rs Hrepo _ IH]; intros orgs Horgs; [exact Horgs |].
  simpl. by apply IH, add_unless_listed_invariant.
Qed.

(** ** Asynchronous code and the maps *)

Section Frames.
Context `{Platform}.

Lemma frames_ret {A} (a : A) : frames_registry (io_ret a).
Proof. by intros s. Qed.

Lemma frames_read : frames_registry read_registry.
Proof. by intros s. Qed.

Lemma frames_await {A} (call : world → completion A * world) :
  frames_registry (await call).
Proof. intros [st w]. unfold await; simpl. by destruct (call w). Qed.

Lemma frames_bind {A B} (m : io A) (k : A → io B) :
  frames_registry m → (∀ a, frames_registry (k a)) → frames_registry (io_bind m k).
Proof.
  intros Hm Hk s. unfold io_bind. specialize (Hm s).
  destruct (m s) as [[a|e] s']; simpl in *; [|done].
  by rewrite Hk.
Qed.

Lemma frames_try {A} (m : io A) (h : js_error → io A) :
  frames_registry m → (∀ e, frames_registry (h e)) → frames_registry (try_catch m h).
Proof.
  intros Hm Hh s. unfold try_catch. specialize (Hm s).
  destruct (m s) as [[a|e] s']; simpl in *; [done |].
  by rewrite Hh.
Qed.

End Frames.

Create HintDb frames.
#[export] Hint Resolve frames_ret frames_read frames_await frames_bind frames_try : frames.

Section Reports.
Context `{Platform}.

Lemma getOctokit_frames (i : Z) : frames_registry (getOctokit i).
Proof. unfold getOctokit, generateGitHubJWT. auto 10 with frames. Qed.

Lemma fetchSecurityReports_frames (client : octokit) (owner repo : option string) :
  frames_registry (fetchSecurityReports client owner repo).
Proof. unfold fetchSecurityReports. auto 10 with frames. Qed.

Lemma collect_reports_frames (repos : list string) (reports : list report) :
  frames_registry (collect_reports repos reports).
Proof.
  revert reports. induction repos as [|name rest IH]; intros reports; simpl.
  - auto with frames.
  - apply frames_bind; [auto with frames |]. intros st.
    destruct (installedRepositories st !! name) as [i|]; [|done].
    case_bool_decide; [done |].
    apply frames_bind; [apply getOctokit_frames |]. intros client.
    apply frames_bind; [apply fetchSecurityReports_frames |]. by intros fetched.
Qed.

Lemma checkIfSafeToUse_frames (v : version) (org : option string) :
  frames_registry (checkIfSafeToUse v org).
Proof.
  unfold checkIfSafeToUse. apply frames_bind; [auto with frames |]. intros st.
  destruct (org ≫= _); [|auto with frames].
  apply frames_bind; [apply collect_reports_frames | auto with frames].
Qed.

Lemma sync_bind {A B} (h : registry → A * registry) (k : A → io B)
    (s : registry * world) :
  io_bind (sync h) k s = k (h s.1).1 ((h s.1).2, s.2).
Proof. unfold io_bind, sync. by destruct (h s.1). Qed.

(** The maps after a request. *)
Lemma handle_registry (v : version) (rq : request) (s : registry * world) :
  (handle v rq s).2.1
  = match rq with
    | PostAddOrgWithRepos req => (addOrgWithRepos v req s.1).2
    | PostWebhook event p =>
        if bool_decide (event = "installation") then install p s.1 else s.1
    | _ => s.1
    end.
Proof.
  destruct rq as [repoUrl|req|org|event p]; simpl.
  - unfold sync. destruct (checkIfAdded repoUrl s.1) as [res st] eqn:Hres.
    unfold checkIfAdded in Hres.
    destruct repoUrl; [case_decide |]; by simplify_eq.
  - unfold sync. by destruct (addOrgWithRepos v req s.1).
  - apply checkIfSafeToUse_frames.
  - unfold webhook. rewrite sync_bind; simpl.
    match goal with
    | |- (io_bind ?m ?k ?s').2.1 = _ =>
        assert (frames_registry (io_bind m k)) as Hrest
    end.
    { apply frames_bind; [|auto with frames].
      destruct v; [auto with frames |].
      destruct (alert_event event); [|auto with frames].
      apply frames_try; [|auto with frames].
      apply frames_bind; [apply getOctokit_frames |]. intros client.
      apply frames_bind; [apply fetchSecurityReports_frames | auto with frames]. }
    by rewrite Hrest.
Qed.

End Reports.

Section Claims.
Context `{Platform}.

Lemma serve_invariant (v : version) (rqs : list request) (s : registry * world) :
  listed_are_installed s.1 → listed_are_installed (serve v rqs s).1.
Proof.
  revert s. induction rqs as [|rq rqs IH]; intros s Hinv; [done |].
  simpl. apply IH. rewrite handle_registry.
  destruct rq as [repoUrl|req|org|event p]; try done.
  - by apply addOrgWithRepos_invariant.
  - case_bool_decide; [by apply install_invariant | done].
Qed.

(** C5. Whatever requests the server has handled since it started, to
    whichever of its four routes, every repository in the list of an
    organization is a key of [installedRepositories]. *)
Theorem listed_repositories_are_installed (v : version) (rqs : list request)
    (w : world) (o : string) (l : list string) (r : string) :
  orgRepositories (serve v rqs (empty_registry, w)).1 !! o = Some l →
  r ∈ l →
  is_Some (installedRepositories (serve v rqs (empty_registry, w)).1 !! r).
Proof.
  apply (serve_invariant v rqs (empty_registry, w)).
  intros o' l' r'; simpl. by rewrite lookup_empty.
Qed.

(** C7. [fetchSecurityReports] never throws. When both requests succeed,
    its result has no [error] and each of the two lists as it came back,
    but for an empty list, in whose place there is that list's sentinel.
    When the first request fails, or the second, the result has the one
    [error] and neither [codeql] nor [dependabot]. *)
Theorem fetchSecurityReports_result (client : octokit) (owner repo : option string)
    (st : registry) (w : world) :
  (∀ c w1 d w2,
      request_alerts client CodeScanningAlerts owner repo w = (Returned c, w1) →
      request_alerts client DependabotAlerts owner repo w1 = (Returned d, w2) →
      fetchSecurityReports client owner repo (st, w)
      = (Returned
           {| f_codeql := if decide (c = []) then Text "✅ No CodeQL alerts"
                          else Alerts c;
              f_dependabot := if decide (d = []) then Text "✅ No Dependabot alerts"
                              else Alerts d;
              f_error := None |},
         (st, w2)))
  ∧ (∀ e w1,
      request_alerts client CodeScanningAlerts owner repo w = (Threw e, w1) →
      fetchSecurityReports client owner repo (st, w)
      = (Returned
           {| f_codeql := Absent; f_dependabot := Absent;
              f_error := Some "Failed to fetch security reports" |},
         (st, w1)))
  ∧ (∀ c w1 e w2,
      request_alerts client CodeScanningAlerts owner repo w = (Returned c, w1) →
      request_alerts client DependabotAlerts owner repo w1 = (Threw e, w2) →
      fetchSecurityReports client owner repo (st, w)
      = (Returned
           {| f_codeql := Absent; f_dependabot := Absent;
              f_error := Some "Failed to fetch security reports" |},
         (st, w2))).
Proof.
  unfold fetchSecurityReports, try_catch, io_bind, await, io_ret; simpl.
  repeat split.
  - intros c w1 d w2 Hc Hd. rewrite Hc; simpl. rewrite Hd; simpl.
    do 2 f_equal. destruct c, d; reflexivity.
  - intros e w1 Hc. by rewrite Hc.
  - intros c w1 e w2 Hc Hd. rewrite Hc; simpl. by rewrite Hd.
Qed.

Lemma fetchSecurityReports_returns (client : octokit) (owner repo : option string)
    (name : string) (st : registry) (w : world) :
  ∃ fetched w',
    fetchSecurityReports client owner repo (st, w) = (Returned fetched, (st, w'))
    ∧ entry_shape (spread name fetched).
Proof.
  unfold fetchSecurityReports, try_catch, io_bind, await, io_ret; simpl.
  destruct (request_alerts client CodeScanningAlerts owner repo w) as [[c|e] w1]; simpl.
  - destruct (request_alerts client DependabotAlerts owner repo w1) as [[d|e] w2]; simpl.
    + eexists _, w2. split; [reflexivity |]. left; simpl.
      by repeat case_bool_decide.
    + eexists _, w2. split; [reflexivity |]. right. by repeat split.
  - eexists _, w1. split; [reflexivity |]. right. by repeat split.
Qed.

(** C8. A request for an organization that has no list, or that names no
    organization, is answered with 404, and the two maps (and the outside
    world) are as they were. *)
Theorem checkIfSafeToUse_unknown_org (v : version) (org : option string)
    (st : registry) (w : world) :
  (∀ o, org = Some o → orgRepositories st !! o = None) →
  ∃ res, handle v (GetCheckIfSafeToUse org) (st, w) = (Returned res, (st, w))
         ∧ status res = 404%nat.
Proof.
  intros Hunknown. simpl. unfold checkIfSafeToUse, io_bind, read_registry; simpl.
  assert (org ≫= (orgRepositories st !!.) = None) as ->.
  { destruct org as [o|]; [|done]. simpl. by apply Hunknown. }
  by eexists.
Qed.

End Claims.

Lemma listed_repositories_are_installed_witness :
  is_Some
    (installedRepositories
       (serve (H := offline) V1
          [PostWebhook "installation" acme_installation;
           PostAddOrgWithRepos {| org := Some "team"; repos := Some ["acme/web"] |}]
          (empty_registry, tt)).1 !! "acme/web").
Proof.
  apply (listed_repositories_are_installed (H := offline) V1 _ tt "team" ["acme/web"]).
  - reflexivity.
  - apply list_elem_of_In. simpl. left. reflexivity.
Defined.

Lemma fetchSecurityReports_result_witness :
  fetchSecurityReports (H := scripted) "token" (Some "acme") (Some "api")
    (empty_registry, [Returned []; Returned [sample_alert]])
  = (Returned
       {| f_codeql := Text "✅ No CodeQL alerts";
          f_dependabot := Alerts [sample_alert];
          f_error := None |},
     (empty_registry, []))
  ∧ fetchSecurityReports (H := scripted) "token" (Some "acme") (Some "api")
      (empty_registry, [Threw Rejected])
    = (Returned fetch_failed, (empty_registry, []))
  ∧ fetchSecurityReports (H := scripted) "token" (Some "acme") (Some "api")
      (empty_registry, [Returned [sample_alert]])
    = (Returned fetch_failed, (empty_registry, [])).
Proof.
  split; [|split].
  - apply (proj1 (fetchSecurityReports_result (H := scripted) "token" (Some "acme")
                    (Some "api") empty_registry [Returned []; Returned [sample_alert]])
             [] [Returned [sample_alert]] [sample_alert] []); reflexivity.
  - apply (proj1 (proj2 (fetchSecurityReports_result (H := scripted) "token" (Some "acme")
                           (Some "api") empty_registry [Threw Rejected]))
             Rejected []); reflexivity.
  - apply (proj2 (proj2 (fetchSecurityReports_result (H := scripted) "token" (Some "acme")
                           (Some "api") empty_registry [Returned [sample_alert]]))
             [sample_alert] [] Rejected []); reflexivity.
Defined.

Lemma checkIfSafeToUse_unknown_org_witness :
  ∃ res,
    handle (H := offline) V1 (GetCheckIfSafeToUse (Some "acme")) (empty_registry, tt)
    = (Returned res, (empty_registry, tt))
    ∧ status res = 404%nat.
Proof.
  apply (checkIfSafeToUse_unknown_org (H := offline) V1 (Some "acme") empty_registry tt).
  intros o _. reflexivity.
Defined.

(** ** The answer of [/checkIfSafeToUse] *)

Section Answer.
Context `{Platform}.

Lemma getOctokit_mints (i : Z) (st : registry) (w : world) :
  minting_succeeds → ∃ client w', getOctokit i (st, w) = (Returned client, (st, w')).
Proof.
  intros [Hsign Htoken].
  unfold getOctokit, generateGitHubJWT, io_bind, await, io_ret; simpl.
  destruct (Hsign w) as (jwt & w1 & ->); simpl.
  destruct (Htoken (new_octokit jwt) i w1) as (token & w2 & ->); simpl.
  by eexists _, _.
Qed.

Lemma reportable_lookup (st : registry) (name : string) :
  reportable st name
  ↔ ∃ i, installedRepositories st !! name = Some i ∧ i ≠ 0.
Proof.
  unfold reportable. destruct (installedRepositories st !! name) as [i|]; simpl.
  - split; [by exists i | by intros (? & [= <-] & ?)].
  - split; [done | by intros (? & ? & _)].
Qed.

Lemma collect_reports_returned (repos : list string) (acc : list report)
    (st : registry) (w : world) (rs : list report) (s' : registry * world) :
  collect_reports repos acc (st, w) = (Returned rs, s') →
  ∃ new, rs = acc ++ new
         ∧ repoFullName <$> new = filter (reportable st) repos
         ∧ Forall entry_shape new.
Proof.
  revert acc w rs. induction repos as [|name rest IH]; intros acc w rs; simpl.
  { intros [= <- <-]. exists []. by rewrite app_nil_r. }
  unfold io_bind at 1, read_registry; simpl.
  destruct (installedRepositories st !! name) as [i|] eqn:Hi.
  - case_bool_decide as Hzero.
    + intros Hrest. apply IH in Hrest as (new & -> & Hnames & Hshape).
      exists new. repeat split; [|done].
      rewrite filter_cons_False; [done |]. unfold reportable. rewrite Hi.
      intros Hne. by apply Hne.
    + unfold io_bind at 1.
      pose proof (getOctokit_frames i (st, w)) as Hframe.
      destruct (getOctokit i (st, w)) as [[client|e] [st1 w1]]; [|done].
      simpl in Hframe; subst st1. unfold io_bind at 1.
      destruct (fetchSecurityReports_returns client (Js.split_slash name !! 0%nat)
                  (Js.split_slash name !! 1%nat) name st w1)
        as (fetched & w2 & -> & Hentry).
      intros Hrest. apply IH in Hrest as (new & -> & Hnames & Hshape).
      exists (spread name fetched :: new). repeat split.
      * by rewrite <-(assoc_L (++)).
      * rewrite filter_cons_True; [by rewrite fmap_cons, Hnames |].
        unfold reportable. by rewrite Hi.
      * by constructor.
  - intros Hrest. apply IH in Hrest as (new & -> & Hnames & Hshape).
    exists new. repeat split; [|done].
    rewrite filter_cons_False; [done |]. unfold reportable. rewrite Hi.
    intros Hne. by apply Hne.
Qed.

Lemma collect_reports_mints (repos : list string) (acc : list report)
    (st : registry) (w : world) :
  minting_succeeds →
  ∃ rs w', collect_reports repos acc (st, w) = (Returned rs, (st, w')).
Proof.
  intros Hmint. revert acc w.
  induction repos as [|name rest IH]; intros acc w; simpl.
  { by eexists _, _. }
  unfold io_bind at 1, read_registry; simpl.
  destruct (installedRepositories st !! name) as [i|]; [|apply IH].
  case_bool_decide; [apply IH |]. unfold io_bind at 1.
  destruct (getOctokit_mints i st w Hmint) as (client & w1 & ->).
  unfold io_bind at 1.
  destruct (fetchSecurityReports_returns client (Js.split_slash name !! 0%nat)
              (Js.split_slash name !! 1%nat) name st w1)
    as (fetched & w2 & -> & _).
  apply IH.
Qed.

Lemma collect_reports_step (name : string) (acc : list report) (st : registry)
    (w : world) :
  (∃ acc1 w1,
      (∀ rest, collect_reports (name :: rest) acc (st, w)
               = collect_reports rest acc1 (st, w1))
      ∧ ∀ i e s1, installedRepositories st !! name = Some i → i ≠ 0 →
                  getOctokit i (st, w) ≠ (Threw e, s1))
  ∨ (∃ i e s1,
       installedRepositories st !! name = Some i ∧ i ≠ 0
       ∧ getOctokit i (st, w) = (Threw e, s1)
       ∧ ∀ rest, collect_reports (name :: rest) acc (st, w) = (Threw e, s1)).
Proof.
  assert (∀ rest,
            collect_reports (name :: rest) acc (st, w)
            = match installedRepositories st !! name with
              | Some i =>
                  if bool_decide (i = 0) then collect_reports rest acc (st, w)
                  else
                    (do! client := getOctokit i in
                     do! fetched := fetchSecurityReports client
                                      (Js.split_slash name !! 0%nat)
                                      (Js.split_slash name !! 1%nat) in
                     collect_reports rest (acc ++ [spread name fetched])) (st, w)
              | None => collect_reports rest acc (st, w)
              end) as Hunfold.
  { intros rest. simpl. unfold io_bind at 1, read_registry; simpl.
    destruct (installedRepositories st !! name); [|done]. by case_bool_decide. }
  destruct (installedRepositories st !! name) as [i|] eqn:Hi.
  - case_bool_decide as Hzero.
    + left. exists acc, w. split; [done |]. by intros i' e s1 [= <-].
    + pose proof (getOctokit_frames i (st, w)) as Hframe.
      destruct (getOctokit i (st, w)) as [[client|e] [st1 w1]] eqn:Hmint.
      * simpl in Hframe; subst st1. left.
        destruct (fetchSecurityReports_returns client (Js.split_slash name !! 0%nat)
                    (Js.split_slash name !! 1%nat) name st w1)
          as (fetched & w2 & Hfetch & _).
        exists (acc ++ [spread name fetched]), w2. split.
        -- intros rest. rewrite Hunfold. unfold io_bind at 1. rewrite Hmint.
           unfold io_bind at 1. by rewrite Hfetch.
        -- intros i' e s1 [= <-] _. by rewrite Hmint.
      * right. exists i, e, (st1, w1). repeat split; try done.
        intros rest. rewrite Hunfold. unfold io_bind at 1. by rewrite Hmint.
  - left. exists acc, w. split; [done |]. by intros i' e s1.
Qed.

Lemma collect_reports_threw (repos : list string) (acc : list report)
    (st : registry) (w : world) (e : js_error) (s' : registry * world) :
  collect_reports repos acc (st, w) = (Threw e, s')
  ↔ ∃ before name after i reports w0,
      repos = before ++ name :: after
      ∧ collect_reports before acc (st, w) = (Returned reports, (st, w0))
      ∧ installedRepositories st !! name = Some i ∧ i ≠ 0
      ∧ getOctokit i (st, w0) = (Threw e, s').
Proof.
  revert acc w. induction repos as [|name rest IH]; intros acc w.
  { split; [done |]. by intros ([|? ?] & ? & ? & ? & ? & ? & ? & _). }
  destruct (collect_reports_step name acc st w)
    as [(acc1 & w1 & Hstep & Hmints)|(i & e0 & s1 & Hi & Hnonzero & Hmint & Hstep)].
  - rewrite Hstep, IH. split.
    + intros (before & name' & after & i & reports & w0 & -> & Hbefore & Hrest).
      exists (name :: before), name', after, i, reports, w0.
      by rewrite Hstep.
    + intros ([|name0 before] & name' & after & i & reports & w0
              & Hsplit & Hbefore & Hi & Hnonzero & Hmint);
        simpl in Hsplit; simplify_eq.
      * simpl in Hbefore. unfold io_ret in Hbefore. simplify_eq.
        by destruct (Hmints i e s' Hi Hnonzero).
      * rewrite Hstep in Hbefore. by exists before, name', after, i, reports, w0.
  - rewrite Hstep. split.
    + intros [= <- <-]. by exists [], name, rest, i, acc, w.
    + intros ([|name0 before] & name' & after & i' & reports & w0
              & Hsplit & Hbefore & Hi' & Hnonzero' & Hmint');
        simpl in Hsplit; simplify_eq.
      * simpl in Hbefore. unfold io_ret in Hbefore. simplify_eq. congruence.
      * by rewrite Hstep in Hbefore.
Qed.

(** C9, as amended. For an organization that has a list: whenever the
    handler answers, the status is 200, the maps are as they were, and the
    answer carries (as its body in the first copy of the server, as the
    [reports] of [{ org, reports }] in the second) one entry, in the order
    of the list, for each element of the list whose installation id is
    recorded and not 0; an entry has the name and either both [codeql] and
    [dependabot] or the [error] alone. The handler throws exactly when one
    of the calls of [getOctokit] that it makes throws, and then throws that
    error, in the state in which the call left it; so it answers whenever
    none of the calls it makes for the request fails. *)
Theorem checkIfSafeToUse_known_org (v : version) (o : string) (repos : list string)
    (st : registry) (w : world) :
  orgRepositories st !! o = Some repos →
  (∀ res s',
      handle v (GetCheckIfSafeToUse (Some o)) (st, w) = (Returned res, s') →
      status res = 200%nat ∧ s'.1 = st
      ∧ ∃ reports,
          payload res = match v with
                        | V1 => Reports reports
                        | V2 => OrgReports (Some o) reports
                        end
          ∧ repoFullName <$> reports = filter (reportable st) repos
          ∧ Forall entry_shape reports)
  ∧ (∀ e s',
      handle v (GetCheckIfSafeToUse (Some o)) (st, w) = (Threw e, s')
      ↔ ∃ name i w0, mint_call repos st w name i w0
                     ∧ getOctokit i (st, w0) = (Threw e, s'))
  ∧ ((∀ name i w0, mint_call repos st w name i w0 →
                   ∃ client s1, getOctokit i (st, w0) = (Returned client, s1)) →
     ∃ res s', handle v (GetCheckIfSafeToUse (Some o)) (st, w) = (Returned res, s')).
Proof.
  intros Hrepos. split; [|split].
  - intros res s' Hrun.
    pose proof (checkIfSafeToUse_frames v (Some o) (st, w)) as Hframe.
    simpl in Hrun. rewrite Hrun in Hframe. simpl in Hframe.
    unfold checkIfSafeToUse, io_bind, read_registry in Hrun; simpl in Hrun.
    rewrite Hrepos in Hrun.
    destruct (collect_reports repos [] (st, w)) as [[reports|e] s1] eqn:Hcollect;
      [|done].
    apply collect_reports_returned in Hcollect as (new & -> & Hnames & Hshape).
    unfold io_ret in Hrun. simplify_eq.
    split; [done |]. split; [done |]. exists new. by destruct v.
  - intros e s'. simpl.
    unfold checkIfSafeToUse, io_bind, read_registry; simpl. rewrite Hrepos.
    destruct (collect_reports repos [] (st, w)) as [[reports|e'] s1] eqn:Hcollect.
    + split; [done |].
      intros (name & i & w0 & (before & after & rs & -> & Hbefore & Hi & Hnonzero) & Hmint).
      assert (collect_reports (before ++ name :: after) [] (st, w) = (Threw e, s'))
        as Hthrew by (apply collect_reports_threw; by exists before, name, after, i, rs, w0).
      congruence.
    + split.
      * intros [= <- <-].
        apply collect_reports_threw in Hcollect
          as (before & name & after & i & rs & w0 & -> & Hbefore & Hi & Hnonzero & Hmint).
        exists name, i, w0. split; [by exists before, after, rs | done].
      * intros (name & i & w0 & (before & after & rs & -> & Hbefore & Hi & Hnonzero) & Hmint).
        assert (collect_reports (before ++ name :: after) [] (st, w) = (Threw e, s'))
          as Hthrew by (apply collect_reports_threw; by exists before, name, after, i, rs, w0).
        rewrite Hcollect in Hthrew. by simplify_eq.
  - intros Hmints. simpl.
    unfold checkIfSafeToUse, io_bind, read_registry; simpl. rewrite Hrepos.
    destruct (collect_reports repos [] (st, w)) as [[reports|e] s1] eqn:Hcollect;
      [by eexists _, _ |].
    apply collect_reports_threw in Hcollect
      as (before & name & after & i & rs & w0 & -> & Hbefore & Hi & Hnonzero & Hmint).
    destruct (Hmints name i w0) as (client & s2 & Hok); [by exists before, after, rs |].
    congruence.
Qed.

End Answer.

(** In particular, on a platform whose signing and token exchange never
    fail the handler always answers. *)
Lemma checkIfSafeToUse_answers_if_minting_succeeds `{Platform} (v : version)
    (org : option string) (st : registry) (w : world) :
  minting_succeeds →
  ∃ res s', handle v (GetCheckIfSafeToUse org) (st, w) = (Returned res, s').
Proof.
  intros Hmint. simpl. unfold checkIfSafeToUse, io_bind, read_registry; simpl.
  destruct (org ≫= _) as [repos|]; [|by eexists _, _].
  destruct (collect_reports_mints repos [] st w Hmint) as (rs & w' & ->).
  by eexists _, _.
Qed.

Lemma checkIfSafeToUse_known_org_witness :
  ∃ res s',
    handle (H := scripted) V1 (GetCheckIfSafeToUse (Some "acme"))
      (install acme_installation empty_registry, [Returned []; Returned []]) = (Returned res, s').
Proof.
  apply (proj2 (proj2 (checkIfSafeToUse_known_org (H := scripted) V1 "acme"
                         ["acme/api"; "acme/web"]
                         (install acme_installation empty_registry)
                         [Returned []; Returned []] eq_refl))).
  intros name i w0 _. by eexists _, _.
Defined.

(** On the scripted platform: the first repository is clear, the second
    cannot be fetched. *)
Example checkIfSafeToUse_acme :
  handle (H := scripted) V1 (GetCheckIfSafeToUse (Some "acme"))
    (install acme_installation empty_registry, [Returned []; Returned []; Threw Rejected])
  = (Returned
       (json_response
          (Reports
             [ {| repoFullName := "acme/api"; codeql := Text "✅ No CodeQL alerts";
                  dependabot := Text "✅ No Dependabot alerts"; error := None |};
               {| repoFullName := "acme/web"; codeql := Absent; dependabot := Absent;
                  error := Some "Failed to fetch security reports" |} ])),
     (install acme_installation empty_registry, [])).
Proof. vm_compute. reflexivity. Qed.

(** C9 does not hold as stated: the organization has a list, minting the
    token fails, and the handler throws instead of answering. *)
Lemma checkIfSafeToUse_throws_when_minting_fails :
  orgRepositories (install acme_installation empty_registry) !! "acme"
  = Some ["acme/api"; "acme/web"]
  ∧ ¬ ∃ res s',
        handle (H := offline) V1 (GetCheckIfSafeToUse (Some "acme"))
          (install acme_installation empty_registry, tt) = (Returned res, s')
        ∧ status res = 200%nat.
Proof.
  split; [reflexivity |].
  intros (res & s' & Hrun & _). vm_compute in Hrun. discriminate.
Qed.

(** ** Further properties of the registry *)

(** X1. [/checkIfAdded] answers 200 exactly when the [repoUrl] parameter is
    there and is a key of [installedRepositories], and 404 otherwise; it
    leaves the maps as they are. *)
Theorem checkIfAdded_answer (repoUrl : option string) (st : registry) :
  (checkIfAdded repoUrl st).2 = st
  ∧ (status (checkIfAdded repoUrl st).1 = 200%nat
     ↔ ∃ r, repoUrl = Some r ∧ is_Some (installedRepositories st !! r))
  ∧ (status (checkIfAdded repoUrl st).1 = 404%nat
     ↔ ∀ r, repoUrl = Some r → installedRepositories st !! r = None).
Proof.
  unfold checkIfAdded. destruct repoUrl as [r|]; simpl.
  - case_decide as Hr; simpl.
    + repeat split; try done.
      * intros _. by exists r.
      * intros Hnone. rewrite (Hnone r) in Hr by done. by destruct Hr.
    + apply eq_None_not_Some in Hr. repeat split; try done.
      * intros (r' & [= <-] & Hsome). rewrite Hr in Hsome. by destruct Hsome.
      * by intros _ r' [= <-].
  - repeat split; try done. by intros (r & ? & _).
Qed.

Lemma foldl_add_unless_listed (o : string) (rs : list string)
    (orgs : gmap string (list string)) (l : list string) :
  orgs !! o = Some l →
  ∃ added, foldl (add_unless_listed o) orgs rs = <[o := l ++ added]> orgs
           ∧ NoDup added ∧ ∀ r, r ∈ added ↔ r ∈ rs ∧ r ∉ l.
Proof.
  revert orgs l. induction rs as [|repo rs IH]; intros orgs l Hl; simpl.
  { exists []. rewrite app_nil_r, insert_id by done.
    split; [done |]. split; [constructor |].
    intros r. split; [by intros ?%elem_of_nil | by intros [?%elem_of_nil _]]. }
  unfold add_unless_listed at 2. rewrite Hl.
  destruct (decide (repo ∈ l)) as [Hin|Hout].
  - destruct (IH orgs l Hl) as (added & -> & Hnd & Hadded).
    exists added. split; [done |]. split; [done |].
    intros r. rewrite Hadded, elem_of_cons. split; [tauto |].
    intros [[->|?] ?]; [done | tauto].
  - destruct (IH (<[o := l ++ [repo]]> orgs) (l ++ [repo])) as (added & -> & Hnd & Hadded);
      [apply lookup_insert_eq |].
    exists (repo :: added). rewrite insert_insert_eq, <-(assoc_L (++)).
    split; [done |]. split.
    + constructor; [|done]. rewrite Hadded, elem_of_app, list_elem_of_singleton. tauto.
    + intros r. rewrite !elem_of_cons, Hadded, elem_of_app, list_elem_of_singleton.
      destruct (decide (r = repo)) as [->|?]; tauto.
Qed.

Lemma not_installed_nil (st : registry) (rs : list string) :
  filter (λ repo, installedRepositories st !! repo = None) rs = []
  ↔ Forall (λ repo, is_Some (installedRepositories st !! repo)) rs.
Proof.
  induction rs as [|repo rs IH]; [by split; [constructor |] |].
  rewrite filter_cons, Forall_cons, <-IH.
  destruct (installedRepositories st !! repo) as [i|] eqn:Hrepo.
  - rewrite decide_False by done. split; [by split | tauto].
  - rewrite decide_True by done. split; [done | by intros [[] _]].
Qed.

(** The three outcomes of [/addOrgWithRepos]. *)
Lemma addOrgWithRepos_cases (v : version) (req : registration) (st : registry) :
  (acceptable req st
   ∧ ∃ o rs, org req = Some o ∧ repos req = Some rs
     ∧ addOrgWithRepos v req st
       = (json_response (Message (added_message v o rs)),
          {| installedRepositories := installedRepositories st;
             orgRepositories :=
               foldl (add_unless_listed o)
                 (if decide (is_Some (orgRepositories st !! o)) then orgRepositories st
                  else <[o := []]> (orgRepositories st)) rs |}))
  ∨ (¬ acceptable req st
     ∧ status (addOrgWithRepos v req st).1 = 400%nat
     ∧ installedRepositories (addOrgWithRepos v req st).2 = installedRepositories st
     ∧ (orgRepositories (addOrgWithRepos v req st).2 = orgRepositories st
        ∨ ∃ o, org req = Some o ∧ orgRepositories st !! o = None
               ∧ orgRepositories (addOrgWithRepos v req st).2
                 = <[o := []]> (orgRepositories st))).
Proof.
  unfold addOrgWithRepos, acceptable.
  destruct (org req) as [o|] eqn:Horg; [|right; split; [by intros (? & ? & ? & _) | by repeat split; try left]].
  destruct (repos req) as [rs|] eqn:Hrepos;
    [|right; split; [by intros (? & ? & _ & _ & ? & _) | by repeat split; try left]].
  simpl. destruct (decide (o = "")) as [->|Ho].
  { right. simpl. split; [by intros (? & ? & [= <-] & ? & _) | by repeat split; try left]. }
  rewrite bool_decide_eq_false_2 by done. simpl.
  destruct rs as [|repo rs].
  { right. simpl. split; [by intros (? & ? & _ & _ & [= <-] & ? & _) | by repeat split; try left]. }
  rewrite bool_decide_eq_false_2 by done.
  destruct (filter _ (repo :: rs)) as [|missing rest] eqn:Hfilter.
  - left. rewrite bool_decide_eq_false_2 by (simpl; lia).
    apply not_installed_nil in Hfilter.
    split; [by exists o, (repo :: rs) | by exists o, (repo :: rs)].
  - right. rewrite bool_decide_eq_true_2 by (simpl; lia). simpl.
    split.
    { intros (? & ? & [= <-] & _ & [= <-] & _ & Hall).
      apply not_installed_nil in Hall. congruence. }
    repeat split. case_decide as Hhas; [by left |].
    right. exists o. by apply eq_None_not_Some in Hhas.
Qed.

(** X2. [/addOrgWithRepos] answers 200 exactly when [org] is a non-empty
    string and [repos] a non-empty list of installed repositories, and 400
    otherwise; it never changes [installedRepositories]; and a request whose
    [org] is missing or empty, or whose [repos] is missing, not a list or
    empty, leaves both maps as they are. *)
Theorem addOrgWithRepos_answer (v : version) (req : registration) (st : registry) :
  (status (addOrgWithRepos v req st).1 = 200%nat ↔ acceptable req st)
  ∧ (status (addOrgWithRepos v req st).1 = 400%nat ↔ ¬ acceptable req st)
  ∧ installedRepositories (addOrgWithRepos v req st).2 = installedRepositories st
  ∧ (falsy (org req) = true ∨ repos req = None ∨ repos req = Some [] →
     (addOrgWithRepos v req st).2 = st).
Proof.
  split; [|split; [|split]].
  - destruct (addOrgWithRepos_cases v req st)
      as [(Hacc & o & rs & _ & _ & ->)|(Hno & Hstatus & _)]; [done |].
    rewrite Hstatus. by split.
  - destruct (addOrgWithRepos_cases v req st)
      as [(Hacc & o & rs & _ & _ & ->)|(Hno & Hstatus & _)]; [|done].
    simpl. by split.
  - destruct (addOrgWithRepos_cases v req st)
      as [(Hacc & o & rs & _ & _ & ->)|(Hno & _ & Hinstalled & _)]; done.
  - unfold addOrgWithRepos.
    destruct (org req) as [o|]; [|done]. destruct (repos req) as [[|repo rs]|]; try done.
    + intros _. by rewrite orb_true_r.
    + simpl. intros [Ho|[?|?]]; [|done..]. by rewrite Ho.
Qed.

Lemma addOrgWithRepos_answer_witness :
  (addOrgWithRepos V1 {| org := Some ""; repos := Some ["acme/api"] |}
     (addRepository "acme/api" "acme" 7 empty_registry)).2
  = addRepository "acme/api" "acme" 7 empty_registry.
Proof.
  apply (proj2 (proj2 (proj2 (addOrgWithRepos_answer V1
                                {| org := Some ""; repos := Some ["acme/api"] |}
                                (addRepository "acme/api" "acme" 7 empty_registry))))).
  left. reflexivity.
Defined.

Lemma addOrgWithRepos_appends (v : version) (o : string) (rs : list string)
    (st : registry) :
  o ≠ "" → rs ≠ [] →
  Forall (λ repo, is_Some (installedRepositories st !! repo)) rs →
  ∃ added,
    (addOrgWithRepos v {| org := Some o; repos := Some rs |} st).2
    = {| installedRepositories := installedRepositories st;
         orgRepositories :=
           <[o := default [] (orgRepositories st !! o) ++ added]> (orgRepositories st) |}
    ∧ NoDup added
    ∧ ∀ r, r ∈ added ↔ r ∈ rs ∧ r ∉ default [] (orgRepositories st !! o).
Proof.
  intros Ho Hrs Hinstalled.
  destruct (addOrgWithRepos_cases v {| org := Some o; repos := Some rs |} st)
    as [(_ & o' & rs' & [= <-] & [= <-] & ->)|(Hno & _)]; simpl.
  - destruct (decide (is_Some (orgRepositories st !! o))) as [[l Hl]|Hnone].
    + destruct (foldl_add_unless_listed o rs (orgRepositories st) l Hl)
        as (added & -> & Hnd & Hadded).
      exists added. by rewrite Hl.
    + apply eq_None_not_Some in Hnone.
      destruct (foldl_add_unless_listed o rs (<[o := []]> (orgRepositories st)) [])
        as (added & -> & Hnd & Hadded); [apply lookup_insert_eq |].
      exists added. by rewrite insert_insert_eq, Hnone.
  - destruct Hno. by exists o, rs.
Qed.

(** X3. An accepted registration is answered with 200 and the message that
    names the organization and the repositories; it appends to the
    organization's list (the empty list, for an organization that had none)
    the listed repositories that the list does not hold yet, each once, and
    changes nothing else: the other organizations' lists and
    [installedRepositories] are as before. *)
Theorem addOrgWithRepos_accepted (v : version) (o : string) (rs : list string)
    (st : registry) :
  o ≠ "" → rs ≠ [] →
  Forall (λ repo, is_Some (installedRepositories st !! repo)) rs →
  ∃ added,
    addOrgWithRepos v {| org := Some o; repos := Some rs |} st
    = (json_response (Message (added_message v o rs)),
       {| installedRepositories := installedRepositories st;
          orgRepositories :=
            <[o := default [] (orgRepositories st !! o) ++ added]> (orgRepositories st) |})
    ∧ NoDup added
    ∧ ∀ r, r ∈ added ↔ r ∈ rs ∧ r ∉ default [] (orgRepositories st !! o).
Proof.
  intros Ho Hrs Hinstalled.
  destruct (addOrgWithRepos_appends v o rs st Ho Hrs Hinstalled)
    as (added & Hst & Hnd & Hadded).
  exists added. split; [|done]. rewrite <-Hst.
  destruct (addOrgWithRepos_cases v {| org := Some o; repos := Some rs |} st)
    as [(_ & o' & rs' & [= <-] & [= <-] & ->)|(Hno & _)]; [done |].
  destruct Hno. by exists o, rs.
Qed.

Lemma addOrgWithRepos_accepted_witness :
  ∃ added,
    addOrgWithRepos V1 {| org := Some "team"; repos := Some ["acme/web"; "acme/web"] |}
      (install acme_installation empty_registry)
    = (json_response (Message (added_message V1 "team" ["acme/web"; "acme/web"])),
       {| installedRepositories :=
            installedRepositories (install acme_installation empty_registry);
          orgRepositories :=
            <[ "team" := default [] (orgRepositories
                                       (install acme_installation empty_registry) !! "team")
                         ++ added ]>
              (orgRepositories (install acme_installation empty_registry)) |})
    ∧ NoDup added
    ∧ ∀ r, r ∈ added
           ↔ r ∈ ["acme/web"; "acme/web"]
             ∧ r ∉ default [] (orgRepositories
                                 (install acme_installation empty_registry) !! "team").
Proof.
  apply (addOrgWithRepos_accepted V1 "team" ["acme/web"; "acme/web"]
           (install acme_installation empty_registry)); [done | done |].
  repeat constructor; by eexists.
Defined.

(** X4. Sending the same request to [/addOrgWithRepos] a second time changes
    nothing, whether the request was accepted or rejected. *)
Theorem addOrgWithRepos_idempotent (v : version) (req : registration) (st : registry) :
  (addOrgWithRepos v req (addOrgWithRepos v req st).2).2 = (addOrgWithRepos v req st).2.
Proof.
  destruct (addOrgWithRepos_cases v req st)
    as [((o & rs & Horg & Ho & Hrepos & Hrs & Hinstalled) & _)
       |(Hno & _ & Hinstalled & [Hsame|(o & Horg & Hnew & Hcreated)])].
  - destruct req as [org0 repos0]; simpl in *; subst.
    destruct (addOrgWithRepos_appends v o rs st Ho Hrs Hinstalled)
      as (added & -> & Hnd & Hadded).
    eapply addOrgWithRepos_again; simpl; try done.
    + apply lookup_insert_eq.
    + apply Forall_forall. intros r Hr. rewrite elem_of_app, Hadded.
      destruct (decide (r ∈ default [] (orgRepositories st !! o))); tauto.
  - assert ((addOrgWithRepos v req st).2 = st) as Hst.
    { destruct (addOrgWithRepos v req st).2; destruct st; simpl in *; congruence. }
    by rewrite !Hst.
  - set (st' := (addOrgWithRepos v req st).2) in *.
    assert (st' = {| installedRepositories := installedRepositories st;
                     orgRepositories := <[o := []]> (orgRepositories st) |}) as Hst'.
    { destruct st'; simpl in *; congruence. }
    clearbody st'. subst st'.
    destruct (addOrgWithRepos_cases v req
                {| installedRepositories := installedRepositories st;
                   orgRepositories := <[o := []]> (orgRepositories st) |})
      as [(Hacc & _)|(_ & _ & Hinstalled' & [Hsame|(o' & Horg' & Hnew' & _)])].
    + destruct Hno. destruct Hacc as (o' & rs & ? & ? & ? & ? & ?). by exists o', rs.
    + set (st'' := (addOrgWithRepos v req _).2) in *. clearbody st''.
      destruct st''; simpl in *; congruence.
    + simpl in Hnew'. rewrite Horg in Horg'. simplify_eq.
      by rewrite lookup_insert_eq in Hnew'.
Qed.

(** X5. [/addOrgWithRepos] never puts a repository into a list twice: if no
    list holds a duplicate before a request, none does after it. *)
Theorem addOrgWithRepos_duplicate_free (v : version) (req : registration)
    (st : registry) :
  duplicate_free st → duplicate_free (addOrgWithRepos v req st).2.
Proof.
  intros Hfree o l.
  destruct (addOrgWithRepos_cases v req st)
    as [((o' & rs & Horg & Ho & Hrepos & Hrs & Hinstalled) & _)
       |(_ & _ & _ & [->|(o' & _ & _ & ->)])].
  - destruct req as [org0 repos0]; simpl in *; subst.
    destruct (addOrgWithRepos_appends v o' rs st Ho Hrs Hinstalled)
      as (added & -> & Hnd & Hadded); simpl.
    destruct (decide (o = o')) as [->|Hne].
    + rewrite lookup_insert_eq. intros [= <-]. apply NoDup_app.
      split; [|split; [|done]].
      * destruct (orgRepositories st !! o') as [l|] eqn:Hl; simpl; [|constructor].
        by apply (Hfree o').
      * intros r Hr Hr'. apply Hadded in Hr'. tauto.
    + rewrite lookup_insert_ne by done. apply Hfree.
  - apply Hfree.
  - destruct (decide (o = o')) as [->|Hne].
    + rewrite lookup_insert_eq. intros [= <-]. constructor.
    + rewrite lookup_insert_ne by done. apply Hfree.
Qed.

Lemma addOrgWithRepos_duplicate_free_witness :
  duplicate_free
    (addOrgWithRepos V1 {| org := Some "team"; repos := Some ["acme/web"; "acme/web"] |}
       (install acme_installation empty_registry)).2.
Proof.
  apply addOrgWithRepos_duplicate_free.
  intros o l Hl.
  destruct (decide (o = "acme")) as [->|Hne].
  - vm_compute in Hl. injection Hl as <-. apply (bool_decide_unpack _). vm_compute. exact I.
  - rewrite install_orgs in Hl. rewrite decide_False in Hl by (by intros [? _]).
    simpl in Hl. by rewrite lookup_empty in Hl.
Defined.

(** ** What the server keeps from request to request *)

Section Monotone.
Context `{Platform}.

Lemma handle_keeps_installed (v : version) (rq : request) (s : registry * world)
    (r : string) :
  is_Some (installedRepositories s.1 !! r) →
  is_Some (installedRepositories (handle v rq s).2.1 !! r).
Proof.
  intros Hr. rewrite handle_registry.
  destruct rq as [repoUrl|req|org|event p]; try done.
  - destruct (addOrgWithRepos_cases v req s.1)
      as [(_ & o & rs & _ & _ & ->)|(_ & _ & -> & _)]; done.
  - case_bool_decide; [|done]. rewrite install_installed. by case_decide.
Qed.

Lemma handle_extends_lists (v : version) (rq : request) (s : registry * world)
    (o : string) (l : list string) :
  orgRepositories s.1 !! o = Some l →
  ∃ added, orgRepositories (handle v rq s).2.1 !! o = Some (l ++ added).
Proof.
  intros Hl. rewrite handle_registry.
  assert (∃ added, orgRepositories s.1 !! o = Some (l ++ added)) as Hsame
    by (exists []; by rewrite app_nil_r).
  destruct rq as [repoUrl|req|org|event p]; try exact Hsame.
  - destruct (addOrgWithRepos_cases v req s.1)
      as [((o' & rs & Horg & Ho & Hrepos & Hrs & Hinstalled) & _)
         |(_ & _ & _ & [->|(o' & _ & Hnew & ->)])]; [|exact Hsame|].
    + destruct req as [org0 repos0]; simpl in *; subst.
      destruct (addOrgWithRepos_appends v o' rs s.1 Ho Hrs Hinstalled)
        as (added & -> & _); simpl.
      destruct (decide (o = o')) as [->|Hne].
      * rewrite lookup_insert_eq, Hl. by exists added.
      * by rewrite lookup_insert_ne.
    + rewrite lookup_insert_ne; [done |]. intros <-. congruence.
  - case_bool_decide; [|exact Hsame]. rewrite install_orgs, Hl.
    case_decide; [by eexists | exists []; by rewrite app_nil_r].
Qed.

Lemma serve_keeps_installed (v : version) (rqs : list request) (s : registry * world)
    (r : string) :
  is_Some (installedRepositories s.1 !! r) →
  is_Some (installedRepositories (serve v rqs s).1 !! r).
Proof.
  revert s. induction rqs as [|rq rqs IH]; intros s Hr; [done |].
  simpl. by apply IH, handle_keeps_installed.
Qed.

Lemma serve_extends_lists (v : version) (rqs : list request) (s : registry * world)
    (o : string) (l : list string) :
  orgRepositories s.1 !! o = Some l →
  ∃ added, orgRepositories (serve v rqs s).1 !! o = Some (l ++ added).
Proof.
  revert s l. induction rqs as [|rq rqs IH]; intros s l Hl.
  { exists []. by rewrite app_nil_r. }
  simpl. destruct (handle_extends_lists v rq s o l Hl) as (added & Hstep).
  destruct (IH _ _ Hstep) as (added' & ->).
  exists (added ++ added'). by rewrite (assoc_L (++)).
Qed.

(** X6. Nothing is ever removed: whatever requests follow, a repository that
    is a key of [installedRepositories] stays one, and the list of an
    organization stays there and is only ever appended to. *)
Theorem serve_never_removes (v : version) (rqs : list request) (s : registry * world) :
  (∀ r, is_Some (installedRepositories s.1 !! r) →
        is_Some (installedRepositories (serve v rqs s).1 !! r))
  ∧ (∀ o l, orgRepositories s.1 !! o = Some l →
            ∃ added, orgRepositories (serve v rqs s).1 !! o = Some (l ++ added)).
Proof.
  split.
  - intros r. apply serve_keeps_installed.
  - intros o l. apply serve_extends_lists.
Qed.

(** X7. On a server that has just started [/checkIfAdded] answers 404 for
    every repository; once an [installation] event has listed a repository,
    it answers 200 for it after any further requests, provided each of them
    was answered (none of their handlers threw). *)
Theorem checkIfAdded_after_installation (v : version) (p : webhook_payload)
    (rqs : list request) (st : registry) (w : world) (r : string) :
  r ∈ repositories p →
  all_answered v (PostWebhook "installation" p :: rqs) (st, w) →
  status (checkIfAdded (Some r) empty_registry).1 = 404%nat
  ∧ ∃ res s',
      handle v (GetCheckIfAdded (Some r))
        (serve v (PostWebhook "installation" p :: rqs) (st, w)) = (Returned res, s')
      ∧ status res = 200%nat.
Proof.
  intros Hr _. split; [done |].
  assert (is_Some (installedRepositories
                     (serve v (PostWebhook "installation" p :: rqs) (st, w)).1 !! r))
    as Hinstalled.
  { change (serve v (PostWebhook "installation" p :: rqs) (st, w))
      with (serve v rqs (handle v (PostWebhook "installation" p) (st, w)).2).
    apply serve_keeps_installed. rewrite handle_registry; simpl.
    by rewrite install_installed, decide_True. }
  destruct (serve v (PostWebhook "installation" p :: rqs) (st, w)) as [st1 w1].
  simpl in *. unfold sync, checkIfAdded.
  rewrite decide_True by done. by eexists _, _.
Qed.

(** X8. The two GET routes only read: after [/checkIfAdded], and after
    [/checkIfSafeToUse] whether it answers or throws, both maps are as they
    were. *)
Theorem get_routes_read_only (v : version) (q : option string) (s : registry * world) :
  (handle v (GetCheckIfAdded q) s).2 = s
  ∧ (handle v (GetCheckIfSafeToUse q) s).2.1 = s.1.
Proof.
  split; [|by rewrite handle_registry].
  destruct s as [st w]. simpl. unfold sync, checkIfAdded; simpl.
  destruct q; [case_decide |]; done.
Qed.

(** On a payload that has every member the webhook answers 200, whatever
    the event and whatever the platform does. *)
Lemma webhook_acknowledges (v : version) (event : string)
    (p : webhook_payload) (s : registry * world) :
  ∃ res s',
    webhook v event p s = (Returned res, s')
    ∧ status res = 200%nat
    ∧ s'.1 = if bool_decide (event = "installation") then install p s.1 else s.1.
Proof.
  pose proof (handle_registry v (PostWebhook event p) s) as Hmaps. simpl in Hmaps.
  unfold webhook in *. rewrite sync_bind in *; simpl in *.
  destruct v; [by eexists _, _ |].
  destruct (alert_event event); [|by eexists _, _].
  unfold io_bind at 1 in Hmaps. unfold io_bind at 1.
  match goal with
  | |- context [try_catch ?m ?h ?s0] =>
      assert (∃ s1, try_catch m h s0 = (Returned (), s1)) as [s1 Htry]
  end.
  { unfold try_catch, io_bind at 1.
    match goal with |- context [getOctokit ?i ?s0] =>
      destruct (getOctokit i s0) as [[client|e] [st1 w1]] end; [|by eexists].
    unfold io_bind.
    match goal with |- context [fetchSecurityReports ?c ?a ?b (st1, w1)] =>
      destruct (fetchSecurityReports_returns c a b "" st1 w1) as (f & w2 & -> & _) end.
    by eexists. }
  rewrite Htry in *. simpl in *. by eexists _, _.
Qed.

End Monotone.

(** ** Further properties of the classifier and of [split] *)

(** X10. The two expressions that [analyzeReports] evaluates for a report,
    one for [safeToUse] and one for the message, always agree: a verdict with
    [safeToUse = true] says that the repository is safe to use, one with
    [safeToUse = false] that it is not, each naming the repository. *)
Theorem analyzeReports_message_agrees (input : report_list) (vs : list verdict) :
  analyzeReports input = Returned vs →
  Forall (λ v,
    message v
    = if safeToUse v
      then "✅ " +:+ v_repoFullName v +:+ " is safe to use."
      else "❌ " +:+ v_repoFullName v +:+ " is NOT safe to use due to security alerts.")
    vs.
Proof.
  destruct input as [|l]; [done |].
  destruct (decide (l = [])) as [->|Hne]; [done |].
  rewrite (analyzeReports_list l Hne). intros Hvs%array_map_Returned. clear Hne.
  induction Hvs as [|r v l vs Hv _ IH]; [constructor |].
  constructor; [|exact IH].
  clear IH. unfold classify in Hv.
  destruct (includes (codeql r) clear_marker) as [[]|e]; simpl in Hv; [| |done].
  - destruct (includes (dependabot r) clear_marker) as [[]|e]; simpl in Hv; [| |done];
      by simplify_eq.
  - by simplify_eq.
Qed.

Lemma analyzeReports_message_agrees_witness :
  Forall (λ v,
    message v
    = if safeToUse v
      then "✅ " +:+ v_repoFullName v +:+ " is safe to use."
      else "❌ " +:+ v_repoFullName v +:+ " is NOT safe to use due to security alerts.")
    [ {| v_repoFullName := "a/b"; safeToUse := false;
         message := "❌ a/b is NOT safe to use due to security alerts." |} ].
Proof.
  apply (analyzeReports_message_agrees
           (ReportArray [ {| repoFullName := "a/b"; codeql := Alerts [sample_alert];
                             dependabot := Text "✅ No Dependabot alerts";
                             error := None |} ])).
  reflexivity.
Defined.

Lemma split_from_cons (cur : string) (c : ascii) (s : string) :
  Js.split_from cur (String c s)
  = if Ascii.eqb c "/"%char then cur :: Js.split_from "" s
    else Js.split_from (cur +:+ String c "") s.
Proof. reflexivity. Qed.

Lemma append_snoc (cur : string) (c : ascii) (s : string) :
  (cur +:+ String c "") +:+ s = cur +:+ String c s.
Proof. induction cur as [|a cur IH]; [done |]. by rewrite !append_cons, IH. Qed.

Lemma split_from_nonempty (cur s : string) : Js.split_from cur s ≠ [].
Proof.
  revert cur. induction s as [|c s IH]; intros cur; [done |].
  rewrite split_from_cons. destruct (Ascii.eqb c "/"); [done | apply IH].
Qed.

Lemma join_cons (sep x : string) (l : list string) :
  l ≠ [] → Js.join sep (x :: l) = x +:+ sep +:+ Js.join sep l.
Proof. by destruct l. Qed.

Lemma join_split_from (cur s : string) :
  Js.join "/" (Js.split_from cur s) = cur +:+ s.
Proof.
  revert cur. induction s as [|c s IH]; intros cur.
  - simpl. induction cur as [|a cur IHcur]; [done |]. by rewrite append_cons, <-IHcur.
  - rewrite split_from_cons. destruct (Ascii.eqb_spec c "/") as [->|Hc].
    + rewrite join_cons by apply split_from_nonempty. by rewrite IH.
    + by rewrite IH, append_snoc.
Qed.

(** [split("/")] loses nothing: it always yields at least one piece, and
    joining the pieces with ["/"] gives the string back. *)
Lemma split_slash_join (s : string) :
  Js.split_slash s ≠ [] ∧ Js.join "/" (Js.split_slash s) = s.
Proof.
  split; [apply split_from_nonempty |].
  unfold Js.split_slash. by rewrite join_split_from.
Qed.

Lemma contains_cons (needle : string) (c : ascii) (s : string) :
  contains needle s → contains needle (String c s).
Proof. intros (a & b & ->). by exists (String c a), b. Qed.

Lemma split_from_slash_free (cur s : string) :
  ¬ contains "/" s → Js.split_from cur s = [cur +:+ s].
Proof.
  revert cur. induction s as [|c s IH]; intros cur Hfree.
  - simpl. f_equal. induction cur as [|a cur IHcur]; [done |].
    by rewrite append_cons, <-IHcur.
  - rewrite split_from_cons. destruct (Ascii.eqb_spec c "/") as [->|Hc].
    + destruct Hfree. by exists "", s.
    + rewrite IH, append_snoc; [done |]. intros Hs. by apply Hfree, contains_cons.
Qed.

(** X11. The owner and the repository that the server takes from a full
    name. For [owner/name] with no further slash they are [owner] and
    [name]; for a full name without a slash the owner is the whole name and
    the repository is [undefined]. *)
Theorem split_slash_owner_repo (owner name : string) :
  ¬ contains "/" owner → ¬ contains "/" name →
  (Js.split_slash (owner +:+ "/" +:+ name) !! 0%nat = Some owner
   ∧ Js.split_slash (owner +:+ "/" +:+ name) !! 1%nat = Some name)
  ∧ (Js.split_slash name !! 0%nat = Some name
     ∧ Js.split_slash name !! 1%nat = None).
Proof.
  intros Howner Hname. split.
  - assert (∀ cur, Js.split_from cur (owner +:+ "/" +:+ name) = [cur +:+ owner; name])
      as Hsplit.
    { induction owner as [|c owner IH]; intros cur.
      - rewrite append_nil. change ("/" +:+ name) with (String "/" name).
        rewrite split_from_cons; simpl.
        rewrite (split_from_slash_free "" name Hname). f_equal.
        induction cur as [|a cur IHcur]; [done |]. by rewrite append_cons, <-IHcur.
      - rewrite append_cons, split_from_cons.
        destruct (Ascii.eqb_spec c "/") as [->|Hc].
        + destruct Howner. by exists "", owner.
        + rewrite IH, append_snoc; [done |].
          intros Hs. by apply Howner, contains_cons. }
    unfold Js.split_slash. by rewrite Hsplit.
  - unfold Js.split_slash. by rewrite (split_from_slash_free "" name Hname).
Qed.

Lemma split_slash_owner_repo_witness :
  (Js.split_slash ("acme" +:+ "/" +:+ "api") !! 0%nat = Some "acme"
   ∧ Js.split_slash ("acme" +:+ "/" +:+ "api") !! 1%nat = Some "api")
  ∧ (Js.split_slash "api" !! 0%nat = Some "api"
     ∧ Js.split_slash "api" !! 1%nat = None).
Proof.
  apply split_slash_owner_repo.
  - intros Hc. apply includes_spec in Hc. vm_compute in Hc. discriminate.
  - intros Hc. apply includes_spec in Hc. vm_compute in Hc. discriminate.
Defined.

(** ** The fetcher and the classifier together *)

Lemma classify_fetched (name : string) (c d : list alert) :
  ∃ v,
    analyzeReports
      (ReportArray
         [spread name
            {| f_codeql := if bool_decide (0 < length c)%nat then Alerts c
                           else Text "✅ No CodeQL alerts";
               f_dependabot := if bool_decide (0 < length d)%nat then Alerts d
                               else Text "✅ No Dependabot alerts";
               f_error := None |}])
    = Returned [v]
    ∧ v_repoFullName v = name
    ∧ (safeToUse v = true ↔ c = [] ∧ d = []).
Proof.
  match goal with |- context [spread name ?f0] => set (f := f0) end.
  assert (clear (f_codeql f) ↔ c = []) as Hcodeql.
  { destruct c; simpl; [split; [done | intros _; apply sentinels_clear] |].
    split; [by intros ?%alerts_not_clear | done]. }
  assert (clear (f_dependabot f) ↔ d = []) as Hdependabot.
  { destruct d; simpl; [split; [done | intros _; apply sentinels_clear] |].
    split; [by intros ?%alerts_not_clear | done]. }
  assert (checkable (spread name f)) as Hcheckable
    by (split; [|intros _]; simpl; by repeat case_bool_decide).
  destruct (classify_checkable _ Hcheckable) as [v Hv].
  exists v. split.
  { change (array_map classify [spread name f] = Returned [v]).
    apply array_map_Returned. by repeat constructor. }
  apply classify_Returned in Hv as (Hname & Hsafe & _). simpl in *.
  split; [done |]. by rewrite Hsafe, Hcodeql, Hdependabot.
Qed.

Section Together.
Context `{Platform}.

(** X12. A repository whose two alert listings were fetched is classified
    safe exactly when both came back empty: the sentinels that the fetcher
    puts in place of the empty lists are what the classifier looks for. *)
Theorem fetched_report_safe_iff_no_alerts (client : octokit) (owner repo : option string)
    (name : string) (st : registry) (w w1 w2 : world) (c d : list alert) :
  request_alerts client CodeScanningAlerts owner repo w = (Returned c, w1) →
  request_alerts client DependabotAlerts owner repo w1 = (Returned d, w2) →
  ∃ f v,
    fetchSecurityReports client owner repo (st, w) = (Returned f, (st, w2))
    ∧ analyzeReports (ReportArray [spread name f]) = Returned [v]
    ∧ v_repoFullName v = name
    ∧ (safeToUse v = true ↔ c = [] ∧ d = []).
Proof.
  intros Hc Hd.
  unfold fetchSecurityReports, try_catch, io_bind, await, io_ret; simpl.
  rewrite Hc; simpl. rewrite Hd; simpl.
  destruct (classify_fetched name c d) as (v & Hv & Hname & Hsafe).
  by eexists _, v.
Qed.

Lemma addOrgWithRepos_rejected_state (v : version) (o : string) (rs : list string)
    (r : string) (st : registry) :
  o ≠ "" → r ∈ rs → installedRepositories st !! r = None →
  (addOrgWithRepos v {| org := Some o; repos := Some rs |} st).2
  = {| installedRepositories := installedRepositories st;
       orgRepositories :=
         if decide (is_Some (orgRepositories st !! o)) then orgRepositories st
         else <[o := []]> (orgRepositories st) |}.
Proof.
  intros Ho Hr Hnot. unfold addOrgWithRepos; simpl.
  rewrite bool_decide_eq_false_2 by done.
  rewrite bool_decide_eq_false_2 by (destruct rs; [by apply elem_of_nil in Hr | done]).
  simpl. rewrite bool_decide_eq_true_2; [done |].
  assert (r ∈ filter (λ repo, installedRepositories st !! repo = None) rs) as Hin
    by (by apply list_elem_of_filter).
  destruct (filter _ rs); [by apply elem_of_nil in Hin | simpl; lia].
Qed.

(** X13. A rejected registration is not without effect on a later request.
    For an organization that has no list [/checkIfSafeToUse] answers 404;
    after a registration for it that was rejected because a repository is
    not installed, it answers 200 with no report, without a call to the
    platform. *)
Theorem checkIfSafeToUse_after_rejected_registration (v : version) (o : string)
    (rs : list string) (r : string) (st : registry) (w : world) :
  o ≠ "" → orgRepositories st !! o = None →
  r ∈ rs → installedRepositories st !! r = None →
  (∃ res, checkIfSafeToUse v (Some o) (st, w) = (Returned res, (st, w))
          ∧ status res = 404%nat)
  ∧ checkIfSafeToUse v (Some o)
      ((addOrgWithRepos v {| org := Some o; repos := Some rs |} st).2, w)
    = (Returned (json_response match v with
                                | V1 => Reports []
                                | V2 => OrgReports (Some o) []
                                end),
       ((addOrgWithRepos v {| org := Some o; repos := Some rs |} st).2, w)).
Proof.
  intros Ho Hnew Hr Hnot. split.
  - unfold checkIfSafeToUse, io_bind, read_registry; simpl. rewrite Hnew.
    by eexists.
  - rewrite (addOrgWithRepos_rejected_state v o rs r st Ho Hr Hnot).
    rewrite decide_False by (rewrite Hnew; by intros [? ?]).
    unfold checkIfSafeToUse, io_bind, read_registry; simpl.
    rewrite lookup_insert_eq. by destruct v.
Qed.

End Together.

Lemma fetched_report_safe_iff_no_alerts_witness :
  ∃ f v,
    fetchSecurityReports (H := scripted) "token" (Some "acme") (Some "api")
      (empty_registry, [Returned []; Returned []]) = (Returned f, (empty_registry, []))
    ∧ analyzeReports (ReportArray [spread "acme/api" f]) = Returned [v]
    ∧ v_repoFullName v = "acme/api"
    ∧ (safeToUse v = true ↔ @nil alert = [] ∧ @nil alert = []).
Proof.
  apply (fetched_report_safe_iff_no_alerts (H := scripted) "token" (Some "acme") (Some "api")
           "acme/api" empty_registry [Returned []; Returned []] [Returned []] []);
    reflexivity.
Defined.

Lemma checkIfSafeToUse_after_rejected_registration_witness :
  checkIfSafeToUse (H := offline) V1 (Some "acme")
    ((addOrgWithRepos V1 {| org := Some "acme"; repos := Some ["acme/api"] |}
        empty_registry).2, tt)
  = (Returned (json_response (Reports [])),
     ((addOrgWithRepos V1 {| org := Some "acme"; repos := Some ["acme/api"] |}
         empty_registry).2, tt)).
Proof.
  apply (proj2 (checkIfSafeToUse_after_rejected_registration (H := offline) V1 "acme"
                  ["acme/api"] "acme/api" empty_registry tt
                  ltac:(done) ltac:(reflexivity)
                  ltac:(apply list_elem_of_In; simpl; left; reflexivity)
                  ltac:(reflexivity))).
Defined.

(** ** The notification chain *)

Lemma getOrgForRepo_None (entries : list (string * list string)) (r : string) :
  getOrgForRepo entries r = None ↔ ∀ o l, (o, l) ∈ entries → r ∉ l.
Proof.
  induction entries as [|[o l] entries IH]; simpl.
  - split; [by intros _ o l ?%elem_of_nil | done].
  - destruct (decide (r ∈ l)) as [Hin|Hout].
    + split; [done |]. intros Hnone. destruct (Hnone o l); [by left | done].
    + rewrite IH. split.
      * intros Hrest o' l' [[= -> ->]|?]%elem_of_cons; [done | by eapply Hrest].
      * intros Hall o' l' Hin. apply (Hall o' l'). by right.
Qed.

Lemma getOrgForRepo_Some (entries : list (string * list string)) (r o : string) :
  getOrgForRepo entries r = Some o → ∃ l, (o, l) ∈ entries ∧ r ∈ l.
Proof.
  induction entries as [|[o' l] entries IH]; simpl; [done |].
  destruct (decide (r ∈ l)) as [Hin|Hout].
  - intros [= <-]. exists l. split; [by left | done].
  - intros (l' & ? & ?)%IH. exists l'. split; [by right | done].
Qed.

(** X14. [getOrgForRepo], in whatever order the [Map] yields its entries:
    it returns [null] exactly when no organization's list includes the
    repository, and an organization it returns has the repository in its
    list. *)
Theorem getOrgForRepo_finds (entries : list (string * list string))
    (orgs : gmap string (list string)) (r : string) :
  entries ≡ₚ map_to_list orgs →
  (getOrgForRepo entries r = None ↔ ∀ o l, orgs !! o = Some l → r ∉ l)
  ∧ (∀ o, getOrgForRepo entries r = Some o → ∃ l, orgs !! o = Some l ∧ r ∈ l).
Proof.
  intros Hentries.
  assert (∀ o l, (o, l) ∈ entries ↔ orgs !! o = Some l) as Hin.
  { intros o l. by rewrite Hentries, elem_of_map_to_list. }
  split.
  - rewrite getOrgForRepo_None. split; intros Hall o l Hl; apply (Hall o l); by apply Hin.
  - intros o (l & Hl & Hr)%getOrgForRepo_Some. exists l. split; [by apply Hin | done].
Qed.

Lemma getOrgForRepo_finds_witness :
  (getOrgForRepo (map_to_list (orgRepositories (install acme_installation empty_registry)))
     "acme/web" = None
   ↔ ∀ o l, orgRepositories (install acme_installation empty_registry) !! o = Some l →
            "acme/web" ∉ l)
  ∧ (∀ o, getOrgForRepo
            (map_to_list (orgRepositories (install acme_installation empty_registry)))
            "acme/web" = Some o →
          ∃ l, orgRepositories (install acme_installation empty_registry) !! o = Some l
               ∧ "acme/web" ∈ l).
Proof. by apply getOrgForRepo_finds. Defined.

Section Chain.
Context `{Platform}.
Variable entries : gmap string (list string) → list (string * list string).
Variable axios_post : string → bool → world → completion unit * world.

Lemma frames_lift {A} (c : completion A) : frames_registry (io_lift c).
Proof. by intros s. Qed.

Lemma checkRepoSafetyAndReport_frames (r : string) :
  frames_registry (checkRepoSafetyAndReport entries axios_post r).
Proof.
  unfold checkRepoSafetyAndReport. apply frames_bind; [auto with frames |]. intros st.
  destruct (installedRepositories st !! r) as [i|]; [|auto with frames].
  case_bool_decide; [auto with frames |].
  destruct (falsy _); [auto with frames |].
  apply frames_try; [|auto with frames].
  apply frames_bind; [apply getOctokit_frames |]. intros client.
  apply frames_bind; [apply fetchSecurityReports_frames |]. intros report.
  apply frames_bind; [apply frames_lift |]. intros verdicts.
  apply frames_bind; [apply frames_lift |]. intros isSafe.
  auto with frames.
Qed.

(** X15. [checkRepoSafetyAndReport] never throws, whatever the platform and
    the certificate service do, and it never changes the maps: every error
    of the chain is swallowed. *)
Theorem checkRepoSafetyAndReport_swallows (r : string) (s : registry * world) :
  ∃ s', checkRepoSafetyAndReport entries axios_post r s = (Returned (), s')
        ∧ s'.1 = s.1.
Proof.
  pose proof (checkRepoSafetyAndReport_frames r s) as Hframe.
  destruct (checkRepoSafetyAndReport entries axios_post r s) as [[[]|e] s'] eqn:Hrun;
    [by exists s' |].
  exfalso. clear Hframe. revert Hrun.
  unfold checkRepoSafetyAndReport, io_bind at 1, read_registry; simpl.
  destruct (installedRepositories s.1 !! r) as [i|]; [|done].
  case_bool_decide; [done |]. destruct (falsy _); [done |].
  unfold try_catch.
  match goal with |- context [io_bind ?m ?k s] => by destruct (io_bind m k s) as [[[]|?] ?] end.
Qed.

(** X16. For a repository that is not installed, or is installed with the
    id 0, or for which [getOrgForRepo] finds no organization (or finds the
    one with the empty name), [checkRepoSafetyAndReport] does nothing at
    all: no token is minted, nothing is fetched or posted. *)
Theorem checkRepoSafetyAndReport_skips (r : string) (st : registry) (w : world) :
  default 0 (installedRepositories st !! r) = 0
  ∨ falsy (getOrgForRepo (entries (orgRepositories st)) r) = true →
  checkRepoSafetyAndReport entries axios_post r (st, w) = (Returned (), (st, w)).
Proof.
  unfold checkRepoSafetyAndReport, io_bind at 1, read_registry; simpl.
  destruct (installedRepositories st !! r) as [i|]; simpl; [|done].
  case_bool_decide as Hi; [done |]. intros [? | ->]; done.
Qed.

Lemma checkRepoSafetyAndReport_eligible (r : string) (i : Z) (st : registry) (w : world) :
  installedRepositories st !! r = Some i → i ≠ 0 →
  falsy (getOrgForRepo (entries (orgRepositories st)) r) = false →
  checkRepoSafetyAndReport entries axios_post r (st, w)
  = try_catch
      (do! client := getOctokit i in
       do! report := fetchSecurityReports client
                       (Js.split_slash r !! 0%nat) (Js.split_slash r !! 1%nat) in
       do! verdicts := io_lift (analyzeReports (ReportArray [spread r report])) in
       do! isSafe := io_lift match verdicts !! 0%nat with
                             | Some v => Returned (safeToUse v)
                             | None => Threw TypeError
                             end in
       do! _ := await (axios_post certificate_url isSafe) in
       io_ret tt)
      (λ _, io_ret tt) (st, w).
Proof.
  intros Hi Hnonzero Horg.
  unfold checkRepoSafetyAndReport, io_bind at 1, read_registry; simpl.
  by rewrite Hi, bool_decide_eq_false_2, Horg by done.
Qed.

Lemma io_bind_Returned {A B} (m : io A) (k : A → io B) (s s' : registry * world) (a : A) :
  m s = (Returned a, s') → io_bind m k s = k a s'.
Proof. unfold io_bind. by intros ->. Qed.

Lemma io_bind_Threw {A B} (m : io A) (k : A → io B) (s s' : registry * world)
    (e : js_error) :
  m s = (Threw e, s') → io_bind m k s = (Threw e, s').
Proof. unfold io_bind. by intros ->. Qed.

Lemma try_catch_swallow (m : io unit) (s s' : registry * world) (u : completion unit) :
  m s = (u, s') → try_catch m (λ _, io_ret tt) s = (Returned (), s').
Proof. unfold try_catch. intros ->. by destruct u as [[]|e]. Qed.

(** X17. For a repository with an installation id and an organization,
    [checkRepoSafetyAndReport] posts to the certificate service only when
    the token was minted and both alert listings were fetched, and then
    posts [showSeal = true] exactly when both listings are empty, swallowing
    a failure of the post. When minting fails, or either listing cannot be
    fetched, nothing is posted. *)
Theorem checkRepoSafetyAndReport_posts (r : string) (i : Z) (st : registry) (w : world) :
  installedRepositories st !! r = Some i → i ≠ 0 →
  falsy (getOrgForRepo (entries (orgRepositories st)) r) = false →
  (∀ e s1, getOctokit i (st, w) = (Threw e, s1) →
           checkRepoSafetyAndReport entries axios_post r (st, w) = (Returned (), s1))
  ∧ (∀ client w1,
       getOctokit i (st, w) = (Returned client, (st, w1)) →
       (∀ e w2,
          request_alerts client CodeScanningAlerts
            (Js.split_slash r !! 0%nat) (Js.split_slash r !! 1%nat) w1 = (Threw e, w2) →
          checkRepoSafetyAndReport entries axios_post r (st, w) = (Returned (), (st, w2)))
       ∧ (∀ c w2 e w3,
          request_alerts client CodeScanningAlerts
            (Js.split_slash r !! 0%nat) (Js.split_slash r !! 1%nat) w1 = (Returned c, w2) →
          request_alerts client DependabotAlerts
            (Js.split_slash r !! 0%nat) (Js.split_slash r !! 1%nat) w2 = (Threw e, w3) →
          checkRepoSafetyAndReport entries axios_post r (st, w) = (Returned (), (st, w3)))
       ∧ (∀ c w2 d w3,
          request_alerts client CodeScanningAlerts
            (Js.split_slash r !! 0%nat) (Js.split_slash r !! 1%nat) w1 = (Returned c, w2) →
          request_alerts client DependabotAlerts
            (Js.split_slash r !! 0%nat) (Js.split_slash r !! 1%nat) w2 = (Returned d, w3) →
          checkRepoSafetyAndReport entries axios_post r (st, w)
          = (Returned (),
             (st, (axios_post certificate_url (bool_decide (c = [] ∧ d = [])) w3).2)))).
Proof.
  intros Hi Hnonzero Horg.
  rewrite (checkRepoSafetyAndReport_eligible r i st w Hi Hnonzero Horg).
  split.
  { intros e s1 Hmint. eapply try_catch_swallow. by apply io_bind_Threw. }
  intros client w1 Hmint. split; [|split].
  - intros e w2 Hc. eapply try_catch_swallow.
    rewrite (io_bind_Returned _ _ _ _ _ Hmint).
    erewrite io_bind_Returned; last first.
    { unfold fetchSecurityReports, try_catch, io_bind, await, io_ret; simpl.
      by rewrite Hc. }
    reflexivity.
  - intros c w2 e w3 Hc Hd. eapply try_catch_swallow.
    rewrite (io_bind_Returned _ _ _ _ _ Hmint).
    erewrite io_bind_Returned; last first.
    { unfold fetchSecurityReports, try_catch, io_bind, await, io_ret; simpl.
      rewrite Hc; simpl. by rewrite Hd. }
    reflexivity.
  - intros c w2 d w3 Hc Hd.
    destruct (classify_fetched r c d) as (v & Hv & _ & Hsafe).
    assert (safeToUse v = bool_decide (c = [] ∧ d = [])) as Hseal.
    { destruct (safeToUse v); symmetry.
      - apply bool_decide_eq_true_2. by apply Hsafe.
      - apply bool_decide_eq_false_2. intros Hempty. by apply Hsafe in Hempty. }
    destruct (axios_post certificate_url (bool_decide (c = [] ∧ d = [])) w3)
      as [posted w4] eqn:Hpost; simpl.
    apply (try_catch_swallow _ _ _
             match posted with Returned _ => Returned tt | Threw e => Threw e end).
    assert (fetchSecurityReports client
              (Js.split_slash r !! 0%nat) (Js.split_slash r !! 1%nat) (st, w1)
            = (Returned
                 {| f_codeql := if bool_decide (0 < length c)%nat then Alerts c
                                else Text "✅ No CodeQL alerts";
                    f_dependabot := if bool_decide (0 < length d)%nat then Alerts d
                                    else Text "✅ No Dependabot alerts";
                    f_error := None |},
               (st, w3))) as Hfetch.
    { unfold fetchSecurityReports, try_catch, io_bind, await, io_ret; simpl.
      rewrite Hc; simpl. by rewrite Hd. }
    rewrite (io_bind_Returned _ _ _ _ _ Hmint).
    rewrite (io_bind_Returned _ _ _ _ _ Hfetch).
    rewrite (io_bind_Returned _ _ _ (st, w3) [v])
      by exact (f_equal (λ c, (c, (st, w3))) Hv).
    rewrite (io_bind_Returned _ _ _ (st, w3) (safeToUse v)) by done.
    unfold io_bind, await, io_ret; simpl. rewrite Hseal, Hpost.
    by destruct posted.
Qed.

End Chain.

Lemma serve_never_removes_witness :
  is_Some
    (installedRepositories
       (serve (H := offline) V1
          [PostAddOrgWithRepos {| org := Some "team"; repos := Some ["acme/web"] |};
           GetCheckIfSafeToUse (Some "team")]
          (install acme_installation empty_registry, tt)).1 !! "acme/api").
Proof.
  apply (proj1 (serve_never_removes (H := offline) V1 _
                  (install acme_installation empty_registry, tt))).
  by eexists.
Defined.

Lemma checkIfAdded_after_installation_witness :
  status (checkIfAdded (Some "acme/api") empty_registry).1 = 404%nat
  ∧ ∃ res s',
      handle (H := scripted) V1 (GetCheckIfAdded (Some "acme/api"))
        (serve (H := scripted) V1
           [PostWebhook "installation" acme_installation;
            GetCheckIfSafeToUse (Some "acme")]
           (empty_registry, [Returned []; Returned []; Returned []; Returned []]))
      = (Returned res, s')
      ∧ status res = 200%nat.
Proof.
  apply (checkIfAdded_after_installation (H := scripted) V1 acme_installation
           [GetCheckIfSafeToUse (Some "acme")] empty_registry
           [Returned []; Returned []; Returned []; Returned []] "acme/api").
  - apply list_elem_of_In. simpl. left. reflexivity.
  - split; [eexists; reflexivity |]. split; [eexists; reflexivity | exact I].
Defined.

Lemma checkRepoSafetyAndReport_skips_witness :
  checkRepoSafetyAndReport (H := offline) map_to_list (λ _ _ w, (Returned tt, w))
    "ghost/repo" (install acme_installation empty_registry, tt)
  = (Returned (), (install acme_installation empty_registry, tt)).
Proof.
  apply (checkRepoSafetyAndReport_skips (H := offline)).
  left. reflexivity.
Defined.

Lemma checkRepoSafetyAndReport_posts_witness :
  checkRepoSafetyAndReport (H := scripted) map_to_list accepting_post "acme/api"
    (install acme_installation empty_registry, [Returned []; Returned [sample_alert]])
  = (Returned (),
     (install acme_installation empty_registry,
      (accepting_post certificate_url
         (bool_decide (@nil alert = [] ∧ [sample_alert] = [])) []).2)).
Proof.
  apply (proj2 (proj2 (proj2 (checkRepoSafetyAndReport_posts (H := scripted)
                                map_to_list accepting_post "acme/api" 7
                                (install acme_installation empty_registry)
                                [Returned []; Returned [sample_alert]]
                                eq_refl ltac:(done) ltac:(vm_compute; reflexivity))
                              "token" [Returned []; Returned [sample_alert]] eq_refl))
           [] [Returned [sample_alert]] [sample_alert] []);
    reflexivity.
Defined.

(** ** The maps and the outside world *)

Lemma addOrgWithRepos_state_version (v1 v2 : version) (req : registration)
    (st : registry) :
  (addOrgWithRepos v1 req st).2 = (addOrgWithRepos v2 req st).2.
Proof.
  unfold addOrgWithRepos.
  destruct (org req) as [o|], (repos req) as [rs|]; try done.
  destruct (falsy (Some o) || bool_decide (length rs = 0%nat)); [done |].
  by case_bool_decide.
Qed.

(** X18. A repository listed by two [installation] events is recorded with
    the installation id of the later event, and is in the list of the
    organization of each of the two events. *)
Theorem installation_twice `{Platform} (v : version) (p1 p2 : webhook_payload)
    (st : registry) (w : world) (r : string) :
  r ∈ repositories p1 → r ∈ repositories p2 →
  installedRepositories
    (serve v [PostWebhook "installation" p1; PostWebhook "installation" p2] (st, w)).1 !! r
  = Some (installation_id p2)
  ∧ ∀ p, p = p1 ∨ p = p2 →
      ∃ l, orgRepositories
             (serve v [PostWebhook "installation" p1; PostWebhook "installation" p2]
                (st, w)).1 !! account_login p = Some l
           ∧ r ∈ l.
Proof.
  intros Hr1 Hr2.
  change (serve v [PostWebhook "installation" p1; PostWebhook "installation" p2] (st, w))
    with (handle v (PostWebhook "installation" p2)
            (handle v (PostWebhook "installation" p1) (st, w)).2).2.
  rewrite !handle_registry; simpl.
  assert (repositories p1 ≠ []) as Hne1 by (intros Hnil; rewrite Hnil in Hr1; by apply elem_of_nil in Hr1).
  assert (repositories p2 ≠ []) as Hne2 by (intros Hnil; rewrite Hnil in Hr2; by apply elem_of_nil in Hr2).
  split; [by rewrite install_installed, decide_True |].
  intros p [-> | ->].
  - rewrite install_orgs, (install_orgs p1), (decide_True (P := _ ∧ repositories p1 ≠ [])) by done.
    case_decide; eexists; (split; [done |]); simpl; rewrite ?elem_of_app; tauto.
  - rewrite install_orgs, decide_True by done.
    eexists. split; [done |]. apply elem_of_app. by right.
Qed.

Lemma installation_twice_witness :
  installedRepositories
    (serve (H := offline) V1
       [PostWebhook "installation" acme_installation;
        PostWebhook "installation"
          {| repositories := ["acme/api"]; account_login := "fork"; installation_id := 9;
             repository_full_name := "acme/api" |}]
       (empty_registry, tt)).1 !! "acme/api"
  = Some 9.
Proof.
  apply (proj1 (installation_twice (H := offline) V1 acme_installation
                  {| repositories := ["acme/api"]; account_login := "fork";
                     installation_id := 9; repository_full_name := "acme/api" |}
                  empty_registry tt "acme/api"
                  ltac:(apply list_elem_of_In; simpl; left; reflexivity)
                  ltac:(apply list_elem_of_In; simpl; left; reflexivity))).
Defined.

(** X19. The maps depend on the requests alone: after the same requests they
    are the same in both copies of the server and whatever the platform
    answered, or failed to answer, along the way. *)
Theorem maps_independent_of_platform (H1 H2 : Platform) (v1 v2 : version)
    (rqs : list request) (st : registry) (w1 : @world H1) (w2 : @world H2) :
  (serve (H := H1) v1 rqs (st, w1)).1 = (serve (H := H2) v2 rqs (st, w2)).1.
Proof.
  revert st w1 w2. induction rqs as [|rq rqs IH]; intros st w1 w2; [done |].
  simpl.
  destruct (handle (H := H1) v1 rq (st, w1)) as [res1 [st1 w1']] eqn:Hrun1.
  destruct (handle (H := H2) v2 rq (st, w2)) as [res2 [st2 w2']] eqn:Hrun2.
  simpl. replace st2 with st1; [apply IH |].
  pose proof (handle_registry (H := H1) v1 rq (st, w1)) as Hmaps1.
  pose proof (handle_registry (H := H2) v2 rq (st, w2)) as Hmaps2.
  rewrite Hrun1 in Hmaps1. rewrite Hrun2 in Hmaps2. simpl in *. subst.
  destruct rq; try done. apply addOrgWithRepos_state_version.
Qed.

(** ** The webhook on any body *)

Section AnyBodyFacts.
Context `{Platform}.

Lemma add_each_cases (b : webhook_body) (repos : list (option string))
    (s : registry * world) :
  (∃ s', add_each b repos s = (Returned (), s')
         ∧ (None ∉ repos) ∧ (repos = [] ∨ installation_complete b))
  ∨ (∃ s', add_each b repos s = (Threw TypeError, s')
           ∧ (None ∈ repos ∨ (repos ≠ [] ∧ ¬ installation_complete b))).
Proof.
  revert s. induction repos as [|repo rest IH]; intros s; simpl.
  { left. exists s. split; [done |]. split; [apply not_elem_of_nil | by left]. }
  destruct repo as [full_name|]; [|right; exists s; split; [done | left; by left]].
  destruct (body_installation b) as [[[login|] id]|] eqn:Hinstallation.
  - rewrite sync_bind; simpl.
    destruct (IH (addRepository full_name login id s.1, s.2))
      as [(s' & -> & Hnone & _)|(s' & -> & [Hin|[_ Hno]])].
    + left. exists s'. split; [done |]. split; [|right; by exists login, id].
      by intros [?|?]%elem_of_cons.
    + right. exists s'. split; [done |]. left. by right.
    + destruct Hno. by exists login, id.
  - right. exists s. split; [done |]. right. split; [done |].
    intros (login & id' & ?). congruence.
  - right. exists s. split; [done |]. right. split; [done |].
    intros (login & id' & ?). congruence.
Qed.

Lemma add_each_complete (p : webhook_payload) (repos : list string) (st : registry)
    (w : world) :
  add_each (complete_body p) (Some <$> repos) (st, w)
  = (Returned (),
     (foldl (λ st repo, addRepository repo (account_login p) (installation_id p) st)
        st repos, w)).
Proof.
  revert st. induction repos as [|repo rest IH]; intros st; [done |].
  rewrite fmap_cons. simpl. rewrite sync_bind; simpl. apply IH.
Qed.

(** On a body that has every member the handler is the one of [webhook]. *)
Lemma webhook_any_body_complete (v : version) (event : string) (p : webhook_payload)
    (s : registry * world) :
  webhook_any_body v (Some event) (complete_body p) s = webhook v event p s.
Proof.
  destruct s as [st w]. unfold webhook_any_body, webhook. rewrite sync_bind.
  unfold io_bind at 1. simpl.
  destruct (decide (event = "installation")) as [->|Hevent].
  - rewrite !bool_decide_eq_true_2 by done. rewrite add_each_complete.
    by destruct v.
  - rewrite (bool_decide_eq_false_2 (Some event = _)) by congruence.
    rewrite (bool_decide_eq_false_2 (event = _)) by done. simpl.
    unfold io_bind at 1 3. by destruct v, (alert_event event).
Qed.

Lemma webhook_any_body_outcome (v : version) (event : option string) (b : webhook_body)
    (s : registry * world) :
  ((∃ res s', webhook_any_body v event b s = (Returned res, s') ∧ status res = 200%nat)
   ∧ ¬ lacks_member v event b)
  ∨ ((∃ s', webhook_any_body v event b s = (Threw TypeError, s'))
     ∧ lacks_member v event b).
Proof.
  unfold webhook_any_body, lacks_member.
  destruct (decide (event = Some "installation")) as [->|Hevent].
  - rewrite bool_decide_eq_true_2 by done. simpl.
    destruct (body_repositories b) as [repos|] eqn:Hrepos.
    + destruct (add_each_cases b repos s) as [(s' & Hrun & Hnone & Hcomplete)
                                             |(s' & Hrun & Hlacks)].
      * left. split.
        -- rewrite (io_bind_Returned _ _ _ _ _ Hrun). by eexists _, _.
        -- intros [[_ Hl]|[? _]]; [|done].
           destruct (Hl repos eq_refl) as [?|[? ?]]; [done |].
           by destruct Hcomplete.
      * right. split; [by rewrite (io_bind_Threw _ _ _ _ _ Hrun); eexists |].
        left. split; [done |]. by intros repos' [= <-].
    + right. split; [by eexists |]. left. split; [done |]. by intros repos' ?.
  - rewrite bool_decide_eq_false_2 by done. unfold io_bind at 1, io_ret at 1.
    destruct (from_option alert_event false event) eqn:Halert; simpl.
    + destruct (body_repository b) as [name|] eqn:Hname.
      * destruct v.
        -- left. split; [by eexists _, _ |]. intros [[? _]|[_ [?|[? _]]]]; done.
        -- destruct (body_installation b) as [[account id]|] eqn:Hinstallation.
           ++ left. split; [|intros [[? _]|[_ [?|[_ ?]]]]; done].
              unfold io_bind at 1.
              match goal with
              | |- context [try_catch ?m ?h s] =>
                  assert (∃ s1, try_catch m h s = (Returned (), s1)) as [s1 ->]
              end; [|by eexists _, _].
              unfold try_catch, io_bind at 1.
              destruct (getOctokit id s) as [[client|e] [st1 w1]]; [|by eexists].
              unfold io_bind.
              match goal with |- context [fetchSecurityReports ?c ?x ?y (st1, w1)] =>
                destruct (fetchSecurityReports_returns c x y "" st1 w1)
                  as (f & w2 & -> & _) end.
              by eexists.
           ++ right. split; [by eexists |]. right. split; [done |]. by right.
      * right. split; [by eexists |]. right. split; [done |]. by left.
    + left. split; [by eexists _, _ |]. intros [[? _]|[? _]]; done.
Qed.

(** X9. The webhook on any body, in both copies of the server and whatever
    the platform does: it answers 200 unless the body lacks a member that
    the handler reads for the event, and then it throws a [TypeError]. No
    failure of the platform makes it throw. *)
Theorem webhook_answers_unless_member_missing (v : version) (event : option string)
    (b : webhook_body) (s : registry * world) :
  ((∃ res s', webhook_any_body v event b s = (Returned res, s') ∧ status res = 200%nat)
   ↔ ¬ lacks_member v event b)
  ∧ ((∃ s', webhook_any_body v event b s = (Threw TypeError, s'))
     ↔ lacks_member v event b)
  ∧ (∀ e s', webhook_any_body v event b s = (Threw e, s') → e = TypeError).
Proof.
  destruct (webhook_any_body_outcome v event b s)
    as [((res & s' & Hrun & Hstatus) & Hno)|((s' & Hrun) & Hlacks)].
  - split; [|split].
    + split; [done | intros _; by exists res, s'].
    + split; [intros (s'' & Hthrew); congruence | done].
    + intros e s'' Hthrew. congruence.
  - split; [|split].
    + split; [intros (res & s'' & Hret & _); congruence | done].
    + split; [done | intros _; by exists s'].
    + intros e s'' Hthrew. congruence.
Qed.

End AnyBodyFacts.

(** An [installation] event whose second element is [null]: the first
    repository is registered before the handler throws. *)
Example webhook_any_body_null_element :
  webhook_any_body (H := offline) V1 (Some "installation")
    {| body_repositories := Some [Some "acme/api"; None];
       body_installation := Some (Some "acme", 7);
       body_repository := None |}
    (empty_registry, tt)
  = (Threw TypeError, (addRepository "acme/api" "acme" 7 empty_registry, tt)).
Proof. vm_compute. reflexivity. Qed.

(** A push event without [repository]. *)
Example webhook_any_body_no_repository :
  webhook_any_body (H := offline) V2 (Some "push")
    {| body_repositories := None; body_installation := Some (Some "acme", 7);
       body_repository := None |}
    (empty_registry, tt)
  = (Threw TypeError, (empty_registry, tt)).
Proof. vm_compute. reflexivity. Qed.
